(** * The [delay] operator of RxJS (src/internal/operators/delay.ts)

    A shallow embedding of the operator factory [delay], of the private
    class [DelaySubscriber] (its queue of [DelayMessage]s, its [active]
    flag, [_next], [_error], [_complete], [_schedule] and the static
    scheduler work [dispatch]) and of the three collaborators the file
    talks to: the [Subscriber] base class, the downstream [destination]
    and the [SchedulerLike] with its self-rescheduling action.

    Numbers are JavaScript numbers restricted to the integers (timestamps
    and delays in milliseconds) plus [NaN], which is what an invalid Date
    coerces to.  The clock is an oracle: the n-th call of
    [scheduler.now()] returns [clock n]; the code reads the clock several
    times within one handler and the model does the same.

    A run is a sequence of calls from the upstream producer ([next],
    [error], [complete]) and of wakeups of the scheduler.  A wakeup may
    come at any time, earlier or later than the wait its action asked
    for, so what is proved of all runs holds whatever the precision of
    the scheduler.  The destination is a terminal consumer: it records
    what it is told and does not call back into the stage while it is
    being told.  The consumer's own unsubscribe is a stimulus of the
    longer histories, [lifetime], that the invariant of the Activity Flag
    ranges over.

    The arithmetic on numbers is that of the integers.  It is the
    arithmetic of the code as long as the operands and the result stay
    within [-2^53, 2^53], where the doubles of JavaScript add and
    subtract integers without rounding; statements that relate a due
    time to a sum say so in a hypothesis, [safe_integer], or are stated
    over the stored due times and the expression of the code. *)

From Stdlib Require Import String ZArith List Bool Lia Sorted.
Import ListNotations.
Open Scope Z_scope.

(** ** JavaScript numbers *)

Module JS.

Inductive number : Type :=
| Num (z : Z)
| NaN.

(** [a + b] *)
Definition add (a b : number) : number :=
  match a, b with
  | Num x, Num y => Num (x + y)
  | _, _ => NaN
  end.

(** [a - b] *)
Definition sub (a b : number) : number :=
  match a, b with
  | Num x, Num y => Num (x - y)
  | _, _ => NaN
  end.

(** [a <= b]; every comparison with [NaN] is false. *)
Definition lte (a b : number) : bool :=
  match a, b with
  | Num x, Num y => x <=? y
  | _, _ => false
  end.

(** [Math.abs(a)] *)
Definition Math_abs (a : number) : number :=
  match a with
  | Num x => Num (Z.abs x)
  | NaN => NaN
  end.

(** [Math.max(a, b)]; [NaN] if either argument is. *)
Definition Math_max (a b : number) : number :=
  match a, b with
  | Num x, Num y => Num (Z.max x y)
  | _, _ => NaN
  end.

(** [isNaN(a)] *)
Definition isNaN (a : number) : bool :=
  match a with
  | Num _ => false
  | NaN => true
  end.

End JS.

Import JS.

(** ** The argument of [delay]: [number | Date] *)

(** A [Date] is represented by its time value, the number [+date]; the
    time value of an invalid Date is [NaN]. *)
Inductive DelayArg : Type :=
| OfNumber (n : number)
| OfDate (timeValue : number).

(** The unary plus / implicit [ToNumber] coercion of the argument. *)
Definition to_number (d : DelayArg) : number :=
  match d with
  | OfNumber n => n
  | OfDate tv => tv
  end.

(** Modelled from the spec: [isValidDate] of src/internal/util/isDate.ts,
    which is imported by delay.ts but is not among the sources.  The
    configured delay is either a duration or a wall-clock deadline, "a
    point in time": a valid Date is a Date whose time value is a number. *)
Definition isValidDate (d : DelayArg) : bool :=
  match d with
  | OfNumber _ => false
  | OfDate tv => negb (isNaN tv)
  end.

(** ** Clocks of the example runs *)

(** A clock that stands still at [t]. *)
Definition clock_frozen (t : Z) : nat -> Z := fun _ => t.

(** A clock that advances by ten milliseconds with every reading. *)
Definition clock_steps : nat -> Z := fun k => 10 * Z.of_nat k.

(** A clock that reads 0, then 10, then stands at 20. *)
Definition clock_hold : nat -> Z :=
  fun k => match k with
           | O => 0
           | S O => 10
           | _ => 20
           end.

Section DelayOperator.

(** The type of the values of the stream and the type of its errors. *)
Variables T E : Type.

(** The clock oracle of the scheduler: the reading returned by the n-th
    call of [scheduler.now()]. *)
Variable clock : nat -> Z.

(** *** Data *)

(** [class DelayMessage<T>] *)
Record DelayMessage : Type := mkDelayMessage {
  time : number;
  value : T
}.

(** The fields of a [DelaySubscriber]: [queue], [active] and the private
    constructor parameter [delay] declared in the source, [isStopped]
    and [closed] inherited from [Subscriber] and [Subscription]. *)
Record DelaySubscriber : Type := mkDelaySubscriber {
  queue : list DelayMessage;
  active : bool;
  subscriber_delay : number;
  isStopped : bool;
  closed : bool
}.

(** What the downstream sink is told. *)
Inductive Notification : Type :=
| NextN (v : T)
| ErrorN (e : E)
| CompleteN.

(** Modelled from the spec: the Downstream Sink collaborator
    ([Subscriber], not among the sources), with "the same three-call
    contract (next, error, complete)", "terminated by error or complete
    (after which no further calls occur)".  [received] records the
    notifications it accepted, [sink_closed] that it has terminated,
    [children] the cancellable handles registered on it with [add]. *)
Record Sink : Type := mkSink {
  received : list Notification;
  sink_closed : bool;
  children : list nat
}.

(** An armed dispatch action: the identity of its handle and the wait it
    was scheduled with. *)
Record Action : Type := mkAction {
  handle : nat;
  wait : number
}.

(** Modelled from the spec: the Scheduler collaborator ([SchedulerLike],
    not among the sources): "now(): Timestamp" and "schedule(action,
    delay, state) -> CancellableHandle, where action may itself call
    schedule again (self-rescheduling) on the same handle identity".
    [ticks] counts the calls of [now()], [next_handle] is the next fresh
    handle, [armed] the scheduled wakeups that are pending. *)
Record Scheduler : Type := mkScheduler {
  ticks : nat;
  next_handle : nat;
  armed : list Action
}.

(** The three objects of [DelayState<T>]. *)
Record World : Type := mkWorld {
  source : DelaySubscriber;
  destination : Sink;
  scheduler : Scheduler
}.

(** *** A state monad over the world *)

Definition M (A : Type) : Type := World -> A * World.

Definition ret {A} (a : A) : M A := fun w => (a, w).

Definition bind {A B} (m : M A) (k : A -> M B) : M B :=
  fun w => let (a, w') := m w in k a w'.

Definition exec {A} (m : M A) (w : World) : World := snd (m w).

Notation "x <- m ;; k" := (bind m (fun x => k))
  (at level 61, m at next level, right associativity).
Notation "m ;; k" := (bind m (fun _ => k))
  (at level 61, right associativity).

Definition with_source (f : DelaySubscriber -> DelaySubscriber) : M unit :=
  fun w => (tt, mkWorld (f (source w)) (destination w) (scheduler w)).

Definition with_destination (f : Sink -> Sink) : M unit :=
  fun w => (tt, mkWorld (source w) (f (destination w)) (scheduler w)).

Definition with_scheduler (f : Scheduler -> Scheduler) : M unit :=
  fun w => (tt, mkWorld (source w) (destination w) (f (scheduler w))).

Definition read {A} (f : World -> A) : M A := fun w => (f w, w).

(** *** Field accesses of the subscriber *)

Definition set_queue (q : list DelayMessage) (s : DelaySubscriber) :=
  mkDelaySubscriber q (active s) (subscriber_delay s) (isStopped s) (closed s).

Definition set_active (b : bool) (s : DelaySubscriber) :=
  mkDelaySubscriber (queue s) b (subscriber_delay s) (isStopped s) (closed s).

Definition set_isStopped (b : bool) (s : DelaySubscriber) :=
  mkDelaySubscriber (queue s) (active s) (subscriber_delay s) b (closed s).

Definition set_closed (b : bool) (s : DelaySubscriber) :=
  mkDelaySubscriber (queue s) (active s) (subscriber_delay s) (isStopped s) b.

(** [queue.push(message)] *)
Definition queue_push (m : DelayMessage) : M unit :=
  with_source (fun s => set_queue (queue s ++ [m]) s).

(** [queue.shift()]: removes the first element and returns it,
    [undefined] on an empty array. *)
Definition queue_shift : M (option DelayMessage) :=
  q <- read (fun w => queue (source w)) ;;
  match q with
  | [] => ret None
  | m :: q' => with_source (set_queue q') ;; ret (Some m)
  end.

(** *** The collaborators *)

(** Modelled from the spec: [Subscription.unsubscribe] as
    [DelaySubscriber] inherits it through [Subscriber] (not among the
    sources): the stage is stopped and closed; it is idempotent.  The
    dispatch action is not a resource of the stage itself: [_schedule]
    registers it on the destination. *)
Definition unsubscribe : M unit :=
  c <- read (fun w => closed (source w)) ;;
  if c then ret tt
  else with_source (fun s => set_closed true (set_isStopped true s)).

(** Modelled from the spec: [scheduler.now()], one reading of the clock. *)
Definition scheduler_now : M Z :=
  n <- read (fun w => ticks (scheduler w)) ;;
  with_scheduler (fun s => mkScheduler (S n) (next_handle s) (armed s)) ;;
  ret (clock n).

(** Modelled from the spec: [scheduler.schedule(work, delay, state)]
    arms a new action and returns its cancellable handle. *)
Definition scheduler_schedule (d : number) : M nat :=
  h <- read (fun w => next_handle (scheduler w)) ;;
  with_scheduler (fun s => mkScheduler (ticks s) (S h) (armed s ++ [mkAction h d])) ;;
  ret h.

(** Modelled from the spec: [this.schedule(state, delay)] inside the
    work of an action: the same handle is armed again. *)
Definition action_schedule (this : nat) (d : number) : M unit :=
  with_scheduler (fun s =>
    mkScheduler (ticks s) (next_handle s) (armed s ++ [mkAction this d])).

(** The actions whose handle is among [hs] stop being armed. *)
Definition cancel (hs : list nat) (s : Scheduler) : Scheduler :=
  mkScheduler (ticks s) (next_handle s)
    (filter (fun a => negb (existsb (Nat.eqb (handle a)) hs)) (armed s)).

(** Modelled from the spec: [this.unsubscribe()] inside the work of an
    action: the handle is cancelled and leaves the subscription it was
    added to. *)
Definition action_unsubscribe (this : nat) : M unit :=
  with_scheduler (cancel [this]) ;;
  with_destination (fun d =>
    mkSink (received d) (sink_closed d)
      (filter (fun h => negb (Nat.eqb h this)) (children d))).

(** Modelled from the spec: [destination.add(handle)]: the handle is
    released with the destination; added to a destination that is
    already closed, it is cancelled at once. *)
Definition destination_add (h : nat) : M unit :=
  c <- read (fun w => sink_closed (destination w)) ;;
  if c then with_scheduler (cancel [h])
  else with_destination (fun d =>
    mkSink (received d) (sink_closed d) (h :: children d)).

(** Modelled from the spec: [destination.next(value)]; a terminated
    sink ignores it. *)
Definition destination_next (v : T) : M unit :=
  with_destination (fun d =>
    if sink_closed d then d
    else mkSink (received d ++ [NextN v]) (sink_closed d) (children d)).

(** Modelled from the spec: the terminal notifications of the sink,
    [destination.error(err)] and [destination.complete()]: a terminated
    sink ignores them; otherwise the notification is delivered and the
    sink tears down, which "unsubscribes all resources": the handles
    registered on it are cancelled and the stage, which the
    [Subscriber] constructor chains to its destination, is
    unsubscribed. *)
Definition destination_terminate (n : Notification) : M unit :=
  c <- read (fun w => sink_closed (destination w)) ;;
  if c then ret tt
  else
    hs <- read (fun w => children (destination w)) ;;
    with_destination (fun d => mkSink (received d ++ [n]) true []) ;;
    with_scheduler (cancel hs) ;;
    unsubscribe.

Definition destination_error (err : E) : M unit :=
  destination_terminate (ErrorN err).

Definition destination_complete : M unit :=
  destination_terminate CompleteN.

(** *** [class DelaySubscriber] *)

(** [private _schedule(scheduler)] *)
Definition _schedule : M unit :=
  with_source (set_active true) ;;
  d <- read (fun w => subscriber_delay (source w)) ;;
  h <- scheduler_schedule d ;;
  destination_add h.

(** [protected _next(value)] *)
Definition _next (v : T) : M unit :=
  t <- scheduler_now ;;
  d <- read (fun w => subscriber_delay (source w)) ;;
  queue_push (mkDelayMessage (add (Num t) d) v) ;;
  a <- read (fun w => active (source w)) ;;
  if negb a then _schedule else ret tt.

(** [protected _error(err)] *)
Definition _error (err : E) : M unit :=
  with_source (set_queue []) ;;
  destination_error err ;;
  unsubscribe.

(** [protected _complete()] *)
Definition _complete : M unit :=
  q <- read (fun w => queue (source w)) ;;
  (if Nat.eqb (length q) 0 then destination_complete else ret tt) ;;
  unsubscribe.

(** The [while] loop of [dispatch].  Every iteration that continues
    shifts one message off the queue, so the length of the queue at
    entry bounds the number of iterations; [fuel] is that bound. *)
Fixpoint dispatch_while (fuel : nat) : M unit :=
  match fuel with
  | O => ret tt
  | S fuel' =>
      q <- read (fun w => queue (source w)) ;;
      match q with
      | [] => ret tt
      | m :: _ =>
          t <- scheduler_now ;;
          if lte (sub (time m) (Num t)) (Num 0) then
            o <- queue_shift ;;
            match o with
            | Some m' => destination_next (value m')
            | None => ret tt
            end ;;
            dispatch_while fuel'
          else ret tt
      end
  end.

(** [private static dispatch(this: SchedulerAction, state)]; [this] is
    the handle of the action that is running. *)
Definition dispatch (this : nat) : M unit :=
  q0 <- read (fun w => queue (source w)) ;;
  dispatch_while (length q0) ;;
  q <- read (fun w => queue (source w)) ;;
  match q with
  | m :: _ =>
      t <- scheduler_now ;;
      action_schedule this (Math_max (Num 0) (sub (time m) (Num t)))
  | [] =>
      st <- read (fun w => isStopped (source w)) ;;
      if st then
        destination_complete ;;
        with_source (set_active false)
      else
        action_unsubscribe this ;;
        with_source (set_active false)
  end.

(** Modelled from the spec: the public entry points [next], [error] and
    [complete] that [DelaySubscriber] inherits from [Subscriber] (not
    among the sources): the upstream is "terminated by error or complete
    (after which no further calls occur)", so a stopped subscriber
    ignores every call, and a terminal call sets the Stopped Flag before
    it runs the handler. *)
Definition next (v : T) : M unit :=
  st <- read (fun w => isStopped (source w)) ;;
  if st then ret tt else _next v.

Definition error (err : E) : M unit :=
  st <- read (fun w => isStopped (source w)) ;;
  if st then ret tt
  else with_source (set_isStopped true) ;; _error err.

Definition complete : M unit :=
  st <- read (fun w => isStopped (source w)) ;;
  if st then ret tt
  else with_source (set_isStopped true) ;; _complete.

(** Modelled from the spec: a wakeup of the scheduler.  The armed action
    with handle [h] stops being pending and its work, [dispatch], runs;
    a handle that is not armed does not fire. *)
Definition wakeup (h : nat) : M unit :=
  a <- read (fun w => existsb (fun a => Nat.eqb (handle a) h) (armed (scheduler w))) ;;
  if a then with_scheduler (cancel [h]) ;; dispatch h
  else ret tt.

(** *** Runs *)

(** What can happen to a stage: a call from the upstream producer or a
    wakeup of the scheduler. *)
Inductive Event : Type :=
| UpNext (v : T)
| UpError (e : E)
| UpComplete
| Wakeup (h : nat).

Definition step (w : World) (ev : Event) : World :=
  match ev with
  | UpNext v => exec (next v) w
  | UpError e => exec (error e) w
  | UpComplete => exec complete w
  | Wakeup h => exec (wakeup h) w
  end.

Definition run (w : World) (evs : list Event) : World :=
  fold_left step evs w.

(** [DelayOperator.call]: the stage that
    [new DelaySubscriber(subscriber, this.delay, this.scheduler)] creates,
    with an empty queue and [active = false], on a fresh destination and a
    scheduler whose clock has been read [n] times. *)
Definition subscribe (d : number) (n : nat) : World :=
  mkWorld (mkDelaySubscriber [] false d false false)
          (mkSink [] false [])
          (mkScheduler n 0 []).

(** [delay(delay, scheduler)]: the computation of [delayFor], which the
    operator keeps for all its subscriptions.  The clock is read only in
    the Date branch; the result is the duration and the number of clock
    readings made so far. *)
Definition delay (d : DelayArg) (n : nat) : number * nat :=
  if isValidDate d then (sub (to_number d) (Num (clock n)), S n)
  else (Math_abs (to_number d), n).

(** *** The [while] loop in closed form *)

(** The loop test [queue[0].time - scheduler.now() <= 0] at the n-th
    reading of the clock. *)
Definition due (n : nat) (m : DelayMessage) : bool :=
  lte (sub (time m) (Num (clock n))) (Num 0).

(** The messages one run of the loop emits, the queue it leaves and the
    number of clock readings after it, for a queue [q] and a clock that
    has been read [n] times. *)
Fixpoint drain_out (n : nat) (q : list DelayMessage) : list DelayMessage :=
  match q with
  | [] => []
  | m :: q' => if due n m then m :: drain_out (S n) q' else []
  end.

Fixpoint drain_rest (n : nat) (q : list DelayMessage) : list DelayMessage :=
  match q with
  | [] => []
  | m :: q' => if due n m then drain_rest (S n) q' else q
  end.

Fixpoint drain_ticks (n : nat) (q : list DelayMessage) : nat :=
  match q with
  | [] => n
  | m :: q' => if due n m then drain_ticks (S n) q' else S n
  end.

(** The [next] notifications of a list of messages, and their delivery
    to a sink in one go. *)
Definition nexts (ms : list DelayMessage) : list Notification :=
  map (fun m => NextN (value m)) ms.

Definition deliver (ms : list DelayMessage) (d : Sink) : Sink :=
  if sink_closed d then d
  else mkSink (received d ++ nexts ms) (sink_closed d) (children d).

(** *** Observations of a world *)

Fixpoint values_of (ns : list Notification) : list T :=
  match ns with
  | [] => []
  | NextN v :: ns' => v :: values_of ns'
  | _ :: ns' => values_of ns'
  end.

(** The values the sink has received and the values still buffered. *)
Definition delivered (w : World) : list T :=
  values_of (received (destination w)).

Definition buffered (w : World) : list T :=
  map value (queue (source w)).

(** Every value the stage holds or has passed on, in order. *)
Definition total (w : World) : list T := delivered w ++ buffered w.

Definition is_error (n : Notification) : bool :=
  match n with
  | ErrorN _ => true
  | _ => false
  end.

(** The sink has been sent an error. *)
Definition failed (w : World) : bool :=
  existsb is_error (received (destination w)).

(** The values of a sequence of events that reach [_next]: those that the
    producer sends before it completes or fails. *)
Fixpoint accepted (evs : list Event) : list T :=
  match evs with
  | [] => []
  | UpNext v :: evs' => v :: accepted evs'
  | Wakeup _ :: evs' => accepted evs'
  | UpComplete :: _ => []
  | UpError _ :: _ => []
  end.

Definition is_UpError (ev : Event) : bool :=
  match ev with
  | UpError _ => true
  | _ => false
  end.

(** The producer never signals an error. *)
Definition error_free (evs : list Event) : bool :=
  forallb (fun ev => negb (is_UpError ev)) evs.

(** Order of two messages by due time. *)
Definition due_le (m1 m2 : DelayMessage) : Prop :=
  match time m1, time m2 with
  | Num a, Num b => a <= b
  | _, _ => False
  end.

(** Every message of the queue is due no later than a message that
    would be enqueued now. *)
Definition due_bounded (dz : Z) (w : World) : Prop :=
  Forall (fun m => exists x, time m = Num x /\
                             x <= clock (ticks (scheduler w)) + dz)
         (queue (source w)).

(** The clock never goes back. *)
Definition monotonic : Prop := forall k, clock k <= clock (S k).

(** The queue is sorted by due time and bounded by the due time of the
    next arrival. *)
Definition timed (dz : Z) (w : World) : Prop :=
  StronglySorted due_le (queue (source w)) /\ due_bounded dz w.

(** *** The states of a stage

    The states that runs reach, for a stage constructed with delay [d]:
    - idle: nothing buffered, no action armed;
    - armed: something buffered, the flag set and one action armed,
      registered on the destination; the producer may have completed
      ([st]), the completion is then pending;
    - completed and failed: the sink has been sent its terminal
      notification and everything is released. *)
Inductive Inv (d : number) : World -> Prop :=
| Inv_idle : forall rc vs tk nh,
    rc = map NextN vs ->
    Inv d (mkWorld (mkDelaySubscriber [] false d false false)
                   (mkSink rc false []) (mkScheduler tk nh []))
| Inv_armed : forall m q st rc vs h wt tk nh,
    rc = map NextN vs ->
    Inv d (mkWorld (mkDelaySubscriber (m :: q) true d st st)
                   (mkSink rc false [h]) (mkScheduler tk nh [mkAction h wt]))
| Inv_completed : forall rc vs tk nh,
    rc = map NextN vs ++ [CompleteN] ->
    Inv d (mkWorld (mkDelaySubscriber [] false d true true)
                   (mkSink rc true []) (mkScheduler tk nh []))
| Inv_failed : forall a rc vs e tk nh,
    rc = map NextN vs ++ [ErrorN e] ->
    Inv d (mkWorld (mkDelaySubscriber [] a d true true)
                   (mkSink rc true []) (mkScheduler tk nh [])).

(** What is left of a completion that was deferred when the queue was
    [q0] and the sink had received [rc0]: [k] of the buffered messages
    have been delivered, in order, and the completion follows them only
    when all of them have been. *)
Definition draining (rc0 : list Notification) (q0 : list DelayMessage)
    (w : World) : Prop :=
  exists k,
    (k <= length q0)%nat /\
    queue (source w) = skipn k q0 /\
    received (destination w) =
      rc0 ++ nexts (firstn k q0) ++
      (if sink_closed (destination w) then [CompleteN] else []) /\
    (sink_closed (destination w) = true -> k = length q0).

(** Every message of the queue carries the reading of the clock at its
    arrival, one of the readings made so far, shifted by the delay. *)
Definition stamped (dz : Z) (w : World) : Prop :=
  Forall (fun m => exists k, (k < ticks (scheduler w))%nat /\
                             time m = Num (clock k + dz))
         (queue (source w)).

(** The wait of an armed action: the configured delay, as [_schedule]
    passes it, or a non-negative number, as [dispatch] computes it. *)
Definition wait_ok (dz : Z) (a : Action) : Prop :=
  wait a = Num dz \/ exists x, wait a = Num x /\ 0 <= x.

(** The handles of the armed actions have been handed out already. *)
Definition handles_used (w : World) : Prop :=
  Forall (fun a => (handle a < next_handle (scheduler w))%nat)
         (armed (scheduler w)).

(** No message of the queue has a due time that is a number. *)
Definition never_due (w : World) : Prop :=
  Forall (fun m => time m = NaN) (queue (source w)).

(** The producer neither completes nor fails in [evs]. *)
Definition keeps_going (evs : list Event) : bool :=
  forallb (fun ev => match ev with
                     | UpError _ | UpComplete => false
                     | _ => true
                     end) evs.

(** *** Histories with the consumer's unsubscribe *)

(** Modelled from the spec: Teardown, the consumer's unsubscribe of the
    destination ([Subscription.unsubscribe], not among the sources):
    "cancel the armed dispatch action if any", "release all resources.
    Idempotent."  The sink is closed without a notification, the handles
    registered on it are cancelled and the stage chained to it is
    unsubscribed.  [queue] and [active] are private fields of
    [DelaySubscriber], which has no teardown code of its own: they stay
    as they are. *)
Definition destination_unsubscribe : M unit :=
  c <- read (fun w => sink_closed (destination w)) ;;
  if c then ret tt
  else
    hs <- read (fun w => children (destination w)) ;;
    with_destination (fun d => mkSink (received d) true []) ;;
    with_scheduler (cancel hs) ;;
    unsubscribe.

(** What can happen to a stage in its whole life: an event of a run, or
    the consumer's unsubscribe. *)
Inductive Stimulus : Type :=
| FromRun (ev : Event)
| Unsubscribe.

Definition react (w : World) (s : Stimulus) : World :=
  match s with
  | FromRun ev => step w ev
  | Unsubscribe => exec destination_unsubscribe w
  end.

Definition lifetime (w : World) (ss : list Stimulus) : World :=
  fold_left react ss w.

Definition is_complete (n : Notification) : bool :=
  match n with
  | CompleteN => true
  | _ => false
  end.

(** The stage has been torn down: its sink is closed and has not been
    sent the completion, so it was closed by an error or by the
    consumer. *)
Definition torn_down (w : World) : bool :=
  sink_closed (destination w) &&
  negb (existsb is_complete (received (destination w))).

(** The states that histories reach: those of the runs, and the stage
    that the consumer has unsubscribed, with whatever queue and flag it
    had. *)
Inductive Life (d : number) : World -> Prop :=
| Life_run : forall w, Inv d w -> Life d w
| Life_cancelled : forall q a rc vs tk nh,
    rc = map NextN vs ->
    Life d (mkWorld (mkDelaySubscriber q a d true true)
                    (mkSink rc true []) (mkScheduler tk nh [])).

(** *** More predicates on clocks, numbers and queues *)


(** An integer that the doubles of the code represent, within the range
    where their sums and differences of integers are exact. *)
Definition safe_integer (z : Z) : Prop := - 2 ^ 53 <= z <= 2 ^ 53.

(** Every message of the queue carries the stamp of [_next],
    [scheduler.now() + delay], for one of the readings of the clock made
    so far. *)
Definition stamped_by (d : number) (w : World) : Prop :=
  Forall (fun m => exists k, (k < ticks (scheduler w))%nat /\
                             time m = add (Num (clock k)) d)
         (queue (source w)).

(** ** The loop and the dispatch body *)

Lemma deliver_nil : forall snk, deliver [] snk = snk.
Proof.
  intros [rc sc ch]. unfold deliver; cbn.
  destruct sc; [reflexivity|]. now rewrite app_nil_r.
Qed.

Lemma deliver_cons : forall m ms snk,
  deliver ms (deliver [m] snk) = deliver (m :: ms) snk.
Proof.
  intros m ms [rc sc ch]. unfold deliver; cbn.
  destruct sc; cbn; [reflexivity|]. now rewrite <- app_assoc.
Qed.

Lemma dispatch_while_spec : forall fuel q a d st cl snk tk nh ar,
  (length q <= fuel)%nat ->
  dispatch_while fuel
    (mkWorld (mkDelaySubscriber q a d st cl) snk (mkScheduler tk nh ar)) =
  (tt, mkWorld (mkDelaySubscriber (drain_rest tk q) a d st cl)
               (deliver (drain_out tk q) snk)
               (mkScheduler (drain_ticks tk q) nh ar)).
Proof.
  induction fuel as [|fuel IH]; intros q a d st cl snk tk nh ar Hlen.
  - destruct q; [|simpl in Hlen; lia]. cbn. now rewrite deliver_nil.
  - destruct q as [|m q].
    + cbn. now rewrite deliver_nil.
    + cbn -[lte sub]. fold (due tk m). destruct (due tk m) eqn:Hd.
      * cbn. unfold set_queue; cbn. rewrite IH by (simpl in Hlen; lia).
        change (if sink_closed snk then snk else _) with (deliver [m] snk).
        now rewrite deliver_cons.
      * cbn. now rewrite deliver_nil.
Qed.

(** More fuel than the length of the queue changes nothing: the loop
    always leaves through its test. *)
Lemma dispatch_while_fuel : forall fuel w,
  (length (queue (source w)) <= fuel)%nat ->
  dispatch_while fuel w = dispatch_while (length (queue (source w))) w.
Proof.
  intros fuel [[q a d st cl] snk [tk nh ar]] H; cbn in *.
  now rewrite !dispatch_while_spec by lia.
Qed.

Lemma drain_split : forall q n, drain_out n q ++ drain_rest n q = q.
Proof.
  induction q as [|m q IH]; intros n; cbn; [reflexivity|].
  destruct (due n m); cbn; [now rewrite IH | reflexivity].
Qed.

Lemma drain_prefix : forall q n,
  exists j, (j <= length q)%nat /\
            drain_out n q = firstn j q /\ drain_rest n q = skipn j q.
Proof.
  induction q as [|m q IH]; intros n; cbn.
  - exists 0%nat. auto.
  - destruct (due n m).
    + destruct (IH (S n)) as (j & Hj & Ho & Hr).
      exists (S j). cbn. rewrite Ho, Hr. repeat split; auto. lia.
    + exists 0%nat. cbn. repeat split; auto. lia.
Qed.

Lemma drain_ticks_bounds : forall q n,
  (n <= drain_ticks n q <= n + length q)%nat.
Proof.
  induction q as [|m q IH]; intros n; cbn; [lia|].
  destruct (due n m); [specialize (IH (S n)); lia | lia].
Qed.

(** When the loop leaves messages behind, it has just read the clock and
    found the first of them not due. *)
Lemma drain_exit : forall q n m r,
  drain_rest n q = m :: r ->
  exists k, (n <= k)%nat /\ drain_ticks n q = S k /\ due k m = false.
Proof.
  induction q as [|m0 q IH]; intros n m r; cbn; [discriminate|].
  destruct (due n m0) eqn:Hd.
  - intros H. destruct (IH _ _ _ H) as (k & Hk & Ht & Hdue).
    exists k. repeat split; auto. lia.
  - intros H. injection H as -> ->. exists n. auto.
Qed.

(** A queue whose messages are all due at every later reading of the
    clock is emptied. *)
Lemma drain_all_due : forall q n,
  (forall m k, In m q -> (n <= k)%nat -> due k m = true) ->
  drain_rest n q = [].
Proof.
  induction q as [|m q IH]; intros n H; cbn; [reflexivity|].
  rewrite (H m n) by (cbn; auto).
  apply IH. intros m' k Hin Hk. apply H; [now right | lia].
Qed.

Lemma dispatch_spec : forall h q a d st cl snk tk nh ar,
  exec (dispatch h)
    (mkWorld (mkDelaySubscriber q a d st cl) snk (mkScheduler tk nh ar)) =
  let w1 := mkWorld (mkDelaySubscriber (drain_rest tk q) a d st cl)
                    (deliver (drain_out tk q) snk)
                    (mkScheduler (drain_ticks tk q) nh ar) in
  match drain_rest tk q with
  | m :: _ =>
      mkWorld (source w1) (destination w1)
        (mkScheduler (S (drain_ticks tk q)) nh
           (ar ++ [mkAction h (Math_max (Num 0)
                     (sub (time m) (Num (clock (drain_ticks tk q)))))]))
  | [] =>
      if st then exec (destination_complete ;; with_source (set_active false)) w1
      else exec (action_unsubscribe h ;; with_source (set_active false)) w1
  end.
Proof.
  intros. unfold exec, dispatch, bind, read. cbn -[dispatch_while Math_max sub].
  rewrite dispatch_while_spec by lia. cbn -[Math_max sub].
  destruct (drain_rest tk q) as [|m r]; cbn -[Math_max sub]; [|reflexivity].
  destruct st; reflexivity.
Qed.

Lemma cancel_self : forall h wt tk nh,
  cancel [h] (mkScheduler tk nh [mkAction h wt]) = mkScheduler tk nh [].
Proof. intros. unfold cancel; cbn. now rewrite Nat.eqb_refl. Qed.

Ltac crunch :=
  cbn -[Math_max sub add lte drain_rest drain_out drain_ticks nexts];
  unfold cancel, set_closed, set_isStopped, set_queue, set_active;
  cbn -[Math_max sub add lte drain_rest drain_out drain_ticks nexts];
  rewrite ?Nat.eqb_refl;
  cbn -[Math_max sub add lte drain_rest drain_out drain_ticks nexts].

(** The wakeup of the armed action of an armed stage, by what the loop
    leaves in the queue. *)
Lemma wakeup_armed : forall d m q st rc h wt tk nh,
  step (mkWorld (mkDelaySubscriber (m :: q) true d st st)
                (mkSink rc false [h]) (mkScheduler tk nh [mkAction h wt]))
       (Wakeup h) =
  let out := drain_out tk (m :: q) in
  let tk' := drain_ticks tk (m :: q) in
  match drain_rest tk (m :: q) with
  | m' :: r =>
      mkWorld (mkDelaySubscriber (m' :: r) true d st st)
              (mkSink (rc ++ nexts out) false [h])
              (mkScheduler (S tk') nh
                 [mkAction h (Math_max (Num 0) (sub (time m') (Num (clock tk'))))])
  | [] =>
      if st then
        mkWorld (mkDelaySubscriber [] false d true true)
                (mkSink ((rc ++ nexts out) ++ [CompleteN]) true [])
                (mkScheduler tk' nh [])
      else
        mkWorld (mkDelaySubscriber [] false d false false)
                (mkSink (rc ++ nexts out) false [])
                (mkScheduler tk' nh [])
  end.
Proof.
  intros. unfold step, wakeup, exec, bind, read.
  cbn -[dispatch cancel drain_rest drain_out drain_ticks nexts Math_max sub].
  rewrite Nat.eqb_refl.
  cbn -[dispatch cancel drain_rest drain_out drain_ticks nexts Math_max sub].
  rewrite cancel_self.
  match goal with |- snd (dispatch ?h ?w) = _ =>
    change (snd (dispatch h w)) with (exec (dispatch h) w) end.
  rewrite dispatch_spec. cbv zeta.
  destruct (drain_rest tk (m :: q)) as [|m' r]; [|reflexivity].
  destruct st; crunch; reflexivity.
Qed.

Lemma wakeup_other : forall d m q st rc h h' wt tk nh,
  h <> h' ->
  step (mkWorld (mkDelaySubscriber (m :: q) true d st st)
                (mkSink rc false [h]) (mkScheduler tk nh [mkAction h wt]))
       (Wakeup h') =
  mkWorld (mkDelaySubscriber (m :: q) true d st st)
          (mkSink rc false [h]) (mkScheduler tk nh [mkAction h wt]).
Proof.
  intros. unfold step, wakeup, exec, bind, read. cbn -[dispatch cancel].
  destruct (Nat.eqb_spec h h'); [contradiction | reflexivity].
Qed.

Lemma nexts_map : forall vs ms,
  map NextN vs ++ nexts ms = map NextN (vs ++ map value ms).
Proof. intros. unfold nexts. now rewrite map_app, map_map. Qed.

(** ** The reachable states *)

Lemma step_Inv : forall d w ev, Inv d w -> Inv d (step w ev).
Proof.
  intros d w ev H.
  destruct H as [rc vs tk nh Hrc | m q st rc vs h wt tk nh Hrc
                | rc vs tk nh Hrc | a rc vs e tk nh Hrc];
    destruct ev as [v | e' | | h']; subst rc;
    try (crunch; econstructor; reflexivity);
    try (destruct st; crunch; econstructor; reflexivity).
  destruct (Nat.eq_dec h h') as [<-|Hne].
  - rewrite wakeup_armed. cbv zeta.
    destruct (drain_rest tk (m :: q)) as [|m' r];
      [destruct st|]; rewrite nexts_map; econstructor; reflexivity.
  - rewrite wakeup_other by assumption. econstructor; reflexivity.
Qed.

Lemma run_Inv : forall d evs w, Inv d w -> Inv d (run w evs).
Proof.
  induction evs as [|ev evs IH]; intros w H; cbn; [assumption|].
  apply IH. now apply step_Inv.
Qed.

Lemma subscribe_Inv : forall d n, Inv d (subscribe d n).
Proof. intros. now apply Inv_idle with (vs := []). Qed.

Lemma reachable_Inv : forall d n evs, Inv d (run (subscribe d n) evs).
Proof. intros. apply run_Inv, subscribe_Inv. Qed.

(** A terminated stage reacts to nothing. *)
Lemma step_terminated : forall d w ev,
  Inv d w -> sink_closed (destination w) = true -> step w ev = w.
Proof.
  intros d w ev H Hc.
  destruct H; cbn in Hc; try discriminate; destruct ev; reflexivity.
Qed.

Lemma run_terminated : forall d evs w,
  Inv d w -> sink_closed (destination w) = true -> run w evs = w.
Proof.
  induction evs as [|ev evs IH]; intros w H Hc; cbn; [reflexivity|].
  rewrite (step_terminated d) by assumption. now apply IH.
Qed.

(** ** Enqueue *)

(** [next] on a live stage, in any of the states runs reach. *)
Lemma next_on_live_stage : forall d w v,
  Inv d w -> isStopped (source w) = false ->
  queue (source (step w (UpNext v))) =
    queue (source w) ++
    [mkDelayMessage (add (Num (clock (ticks (scheduler w)))) d) v]
  /\ (armed (scheduler w) = [] ->
      armed (scheduler (step w (UpNext v))) =
        [mkAction (next_handle (scheduler w)) d])
  /\ (armed (scheduler w) <> [] ->
      armed (scheduler (step w (UpNext v))) = armed (scheduler w))
  /\ received (destination (step w (UpNext v))) = received (destination w)
  /\ sink_closed (destination (step w (UpNext v))) = false
  /\ isStopped (source (step w (UpNext v))) = false
  /\ ticks (scheduler (step w (UpNext v))) = S (ticks (scheduler w)).
Proof.
  intros d w v Hinv Hst.
  destruct Hinv; cbn in Hst; try discriminate; subst; crunch;
    repeat split; try reflexivity; try discriminate; congruence.
Qed.

(** C7: for a value that arrives while the stage is not stopped, [_next]
    reads the clock once and appends the message
    [{time = scheduler.now() + delay, value}] at the tail of the queue; it
    arms a dispatch action, with the delay as its wait, exactly when none
    is armed, and leaves the armed one alone otherwise; nothing is sent
    downstream, in particular no error, and the stage stays live. *)
Theorem enqueue_appends_and_arms : forall d n evs v,
  let w := run (subscribe d n) evs in
  isStopped (source w) = false ->
  let w' := step w (UpNext v) in
  queue (source w') =
    queue (source w) ++
    [mkDelayMessage (add (Num (clock (ticks (scheduler w)))) d) v]
  /\ (armed (scheduler w) = [] ->
      armed (scheduler w') = [mkAction (next_handle (scheduler w)) d])
  /\ (armed (scheduler w) <> [] ->
      armed (scheduler w') = armed (scheduler w))
  /\ received (destination w') = received (destination w)
  /\ sink_closed (destination w') = false
  /\ isStopped (source w') = false
  /\ ticks (scheduler w') = S (ticks (scheduler w)).
Proof.
  intros d n evs v w Hst w'. subst w'.
  apply (next_on_live_stage d); [apply reachable_Inv | assumption].
Qed.

(** ** The Activity Flag *)

Lemma failed_nexts : forall vs, existsb is_error (map NextN vs) = false.
Proof. induction vs; cbn; auto. Qed.

Lemma complete_nexts : forall vs, existsb is_complete (map NextN vs) = false.
Proof. induction vs; cbn; auto. Qed.

(** Once the sink has been sent an error, no action is armed. *)
Lemma nothing_armed_after_error : forall d n evs,
  failed (run (subscribe d n) evs) = true ->
  armed (scheduler (run (subscribe d n) evs)) = [].
Proof.
  intros d n evs. pose proof (reachable_Inv d n evs) as Hinv.
  unfold failed. destruct Hinv; subst; cbn -[existsb];
    rewrite ?existsb_app, ?failed_nexts; cbn; congruence.
Qed.

Lemma react_Life : forall d w s, Life d w -> Life d (react w s).
Proof.
  intros d w s [w' Hinv | q a rc vs tk nh Hrc].
  - destruct s as [ev|]; [apply Life_run; now apply step_Inv|].
    destruct Hinv as [rc vs tk nh Hrc | m q st rc vs h wt tk nh Hrc
                     | rc vs tk nh Hrc | a rc vs e tk nh Hrc]; subst rc.
    + crunch. now apply Life_cancelled with (vs := vs).
    + destruct st; crunch; now apply Life_cancelled with (vs := vs).
    + apply Life_run. now apply Inv_completed with (vs := vs).
    + apply Life_run. now apply Inv_failed with (vs := vs) (e := e).
  - destruct s as [[v | e | | h]|]; cbn;
      now apply Life_cancelled with (vs := vs).
Qed.

Lemma lifetime_Life : forall d ss w, Life d w -> Life d (lifetime w ss).
Proof.
  induction ss as [|s ss IH]; intros w H; cbn; [assumption|].
  apply IH. now apply react_Life.
Qed.

(** C5, amended: in every state that a stage reaches in its life, the
    consumer's unsubscribe included, at most one dispatch action is
    armed; and unless the stage has been torn down by an upstream error
    or by the consumer, the Activity Flag is true if and only if an
    action is armed. *)
Theorem activity_flag_tracks_armed : forall d n ss,
  let w := lifetime (subscribe d n) ss in
  (length (armed (scheduler w)) <= 1)%nat
  /\ (torn_down w = false ->
      (active (source w) = true <-> armed (scheduler w) <> [])).
Proof.
  intros d n ss w.
  assert (Hlife : Life d w).
  { apply lifetime_Life, Life_run, subscribe_Inv. }
  clearbody w. unfold torn_down.
  destruct Hlife as [w Hinv | q a rc vs tk nh Hrc];
    [destruct Hinv|]; subst; cbn -[existsb];
    rewrite ?existsb_app, ?complete_nexts; cbn; split; auto;
    intros Htorn; try discriminate; split; congruence.
Qed.

(** ** Upstream error *)

(** C4: an error from upstream that reaches a live stage clears the
    queue, is forwarded to the sink within the same call, and tears the
    stage down: the stage is stopped and closed, the sink terminated, no
    action armed and no handle left; whatever happens afterwards changes
    nothing, so no buffered value is delivered any more. *)
Theorem error_clears_and_forwards : forall d n evs e,
  let w := run (subscribe d n) evs in
  isStopped (source w) = false ->
  let w1 := step w (UpError e) in
  queue (source w1) = []
  /\ received (destination w1) = received (destination w) ++ [ErrorN e]
  /\ sink_closed (destination w1) = true
  /\ isStopped (source w1) = true
  /\ closed (source w1) = true
  /\ armed (scheduler w1) = []
  /\ children (destination w1) = []
  /\ forall future, run w1 future = w1.
Proof.
  intros d n evs e w Hst w1.
  pose proof (reachable_Inv d n evs) as Hinv. fold w in Hinv.
  assert (Hinv1 : Inv d w1) by now apply step_Inv.
  subst w1. clearbody w.
  assert (Hc : sink_closed (destination (step w (UpError e))) = true).
  { destruct Hinv; cbn in Hst; try discriminate; subst; crunch; reflexivity. }
  repeat split; try assumption;
    try (destruct Hinv; cbn in Hst; try discriminate; subst; crunch; reflexivity).
  intros future. now apply (run_terminated d).
Qed.

(** ** Dispatch *)

Lemma armed_inv : forall d w a,
  Inv d w -> In a (armed (scheduler w)) ->
  exists m q st rc vs tk nh,
    rc = map NextN vs /\
    w = mkWorld (mkDelaySubscriber (m :: q) true d st st)
                (mkSink rc false [handle a])
                (mkScheduler tk nh [mkAction (handle a) (wait a)]).
Proof.
  intros d w a H Hin. destruct H; cbn in Hin; try contradiction.
  destruct Hin as [<-|[]]. cbn. now exists m, q, st, rc, vs, tk, nh.
Qed.

(** C9: a wakeup of the armed action that leaves the queue empty after
    the loop, on a stage whose Stopped Flag is set, delivers what was
    buffered and then the completion to the sink, and terminates the
    stage: the sink is closed and every handle registered on it, the
    handle of the action included, is released, no action is armed, the
    stage is closed and the Activity Flag cleared. *)
Theorem dispatch_completes_when_stopped : forall d n evs a,
  let w := run (subscribe d n) evs in
  In a (armed (scheduler w)) ->
  isStopped (source w) = true ->
  drain_rest (ticks (scheduler w)) (queue (source w)) = [] ->
  let w' := step w (Wakeup (handle a)) in
  received (destination w') =
    received (destination w) ++ nexts (queue (source w)) ++ [CompleteN]
  /\ In (handle a) (children (destination w))
  /\ children (destination w') = []
  /\ sink_closed (destination w') = true
  /\ armed (scheduler w') = []
  /\ closed (source w') = true
  /\ isStopped (source w') = true
  /\ active (source w') = false
  /\ queue (source w') = [].
Proof.
  intros d n evs a w Hin Hst Hdrain w'. subst w'.
  pose proof (reachable_Inv d n evs) as Hinv. fold w in Hinv. clearbody w.
  destruct (armed_inv d w a Hinv Hin) as (m & q & st & rc & vs & tk & nh & Hrc & ->).
  cbn -[drain_rest] in Hst, Hdrain. subst st.
  rewrite wakeup_armed. cbv zeta.
  pose proof (drain_split (m :: q) tk) as Hsplit.
  rewrite Hdrain in *. rewrite app_nil_r in Hsplit. rewrite Hsplit.
  cbn -[nexts]. rewrite <- app_assoc. repeat split; auto.
Qed.

(** With a clock that moves during the wakeup, the wait of the rearmed
    action is computed from the reading that follows the loop. *)
Lemma dispatch_rearms_at_last_reading : forall d w a m r,
  Inv d w -> In a (armed (scheduler w)) ->
  drain_rest (ticks (scheduler w)) (queue (source w)) = m :: r ->
  let tk' := drain_ticks (ticks (scheduler w)) (queue (source w)) in
  queue (source (step w (Wakeup (handle a)))) = m :: r
  /\ armed (scheduler (step w (Wakeup (handle a)))) =
       [mkAction (handle a) (Math_max (Num 0) (sub (time m) (Num (clock tk'))))]
  /\ ticks (scheduler (step w (Wakeup (handle a)))) = S tk'.
Proof.
  intros d w a m r Hinv Hin Hdrain.
  destruct (armed_inv d w a Hinv Hin)
    as (m0 & q & st & rc & vs & tk & nh & Hrc & ->).
  cbn -[drain_rest] in Hdrain.
  cbn -[drain_rest drain_ticks step Math_max sub].
  rewrite wakeup_armed. cbv zeta. rewrite Hdrain. repeat split.
Qed.

(** C6: a wakeup of the armed action that leaves the queue non-empty
    after the loop rearms the same action, with the wait
    [Math.max(0, head.time - t)] for the wall time [t] that
    [scheduler.now()] returns after the loop: the distance from [t] to
    the due time of the head, and zero when the head has become due by
    then.  The loop left the head because it was not due at the reading
    before; no new handle is allocated, the flag stays set and the stage
    armed.  When the clock shows one time [t0] during the whole wakeup,
    [t] is [t0] and the head is not due at [t0]. *)
Theorem dispatch_rearms : forall d n evs a m r,
  let w := run (subscribe d n) evs in
  In a (armed (scheduler w)) ->
  drain_rest (ticks (scheduler w)) (queue (source w)) = m :: r ->
  let w' := step w (Wakeup (handle a)) in
  let t := clock (pred (ticks (scheduler w'))) in
  queue (source w') = m :: r
  /\ armed (scheduler w') =
       [mkAction (handle a) (Math_max (Num 0) (sub (time m) (Num t)))]
  /\ (forall x, time m = Num x ->
        armed (scheduler w') = [mkAction (handle a) (Num (Z.max 0 (x - t)))])
  /\ (exists k, (ticks (scheduler w) <= k)%nat
                /\ ticks (scheduler w') = S (S k)
                /\ due k m = false)
  /\ (forall t0,
        (forall k, (ticks (scheduler w) <= k <=
                    ticks (scheduler w) + length (queue (source w)))%nat ->
                   clock k = t0) ->
        t = t0 /\ lte (sub (time m) (Num t0)) (Num 0) = false)
  /\ active (source w') = true
  /\ next_handle (scheduler w') = next_handle (scheduler w)
  /\ children (destination w') = children (destination w)
  /\ sink_closed (destination w') = false.
Proof.
  intros d n evs a m r w Hin Hdrain w' t. subst t w'.
  pose proof (reachable_Inv d n evs) as Hinv. fold w in Hinv. clearbody w.
  destruct (dispatch_rearms_at_last_reading d w a m r Hinv Hin Hdrain)
    as (Hq & Harmed & Hticks).
  cbv zeta in Harmed, Hticks. rewrite Hticks. cbn [pred].
  destruct (armed_inv d w a Hinv Hin)
    as (m0 & q & st & rc & vs & tk & nh & Hrc & ->).
  cbn -[drain_rest drain_ticks step Math_max sub] in *.
  pose proof (drain_ticks_bounds (m0 :: q) tk) as Hb. cbn [length] in Hb.
  destruct (drain_exit _ _ _ _ Hdrain) as (k & Hk & Hdt & Hdue).
  split; [exact Hq|]. split; [exact Harmed|]. split.
  { intros x Hx. rewrite Harmed, Hx. reflexivity. }
  split.
  { exists k. rewrite Hdt. repeat split; assumption. }
  split.
  { intros t0 Hclock. split; [apply Hclock; lia|].
    unfold due in Hdue. rewrite (Hclock k) in Hdue by lia. exact Hdue. }
  rewrite wakeup_armed. cbv zeta. rewrite Hdrain. repeat split.
Qed.

(** ** The queue is sorted by due time *)

Lemma clock_mono : monotonic -> forall a b, (a <= b)%nat -> clock a <= clock b.
Proof.
  intros Hm a b Hab. induction Hab as [|b Hab IH]; [lia|].
  specialize (Hm b). lia.
Qed.

Lemma StronglySorted_snoc : forall (A : Type) (R : A -> A -> Prop) l y,
  StronglySorted R l -> Forall (fun x => R x y) l ->
  StronglySorted R (l ++ [y]).
Proof.
  intros A R l y Hs. induction Hs as [|x l Hs IH Hx]; intros Hall; cbn.
  - repeat constructor.
  - inversion Hall; subst. constructor; [now apply IH|].
    apply Forall_app. split; [assumption | now constructor].
Qed.

Lemma StronglySorted_suffix : forall (A : Type) (R : A -> A -> Prop) l1 l2,
  StronglySorted R (l1 ++ l2) -> StronglySorted R l2.
Proof.
  induction l1 as [|x l1 IH]; intros l2 H; cbn in *; [assumption|].
  inversion H; subst. now apply IH.
Qed.

Lemma timed_push : forall dz q a st cl snk tk nh ar a' st' cl' snk' nh' ar' v,
  monotonic ->
  timed dz (mkWorld (mkDelaySubscriber q a (Num dz) st cl) snk
                    (mkScheduler tk nh ar)) ->
  timed dz (mkWorld (mkDelaySubscriber
                       (q ++ [mkDelayMessage (add (Num (clock tk)) (Num dz)) v])
                       a' (Num dz) st' cl') snk'
                    (mkScheduler (S tk) nh' ar')).
Proof.
  intros dz q a st cl snk tk nh ar a' st' cl' snk' nh' ar' v Hm [Hs Hb].
  unfold timed, due_bounded in *; cbn in *. split.
  - apply StronglySorted_snoc; [assumption|].
    eapply Forall_impl; [|exact Hb]. cbn.
    intros m (x & Hx & Hle). unfold due_le. rewrite Hx. cbn. assumption.
  - apply Forall_app. split.
    + eapply Forall_impl; [|exact Hb]. cbn.
      intros m (x & Hx & Hle). exists x. split; [assumption|].
      specialize (Hm tk). lia.
    + constructor; [|constructor]. cbn. eexists. split; [reflexivity|].
      specialize (Hm tk). lia.
Qed.

Lemma timed_suffix : forall dz q1 q2 a st cl snk tk nh ar a' st' cl' snk' tk' nh' ar',
  monotonic -> (tk <= tk')%nat ->
  timed dz (mkWorld (mkDelaySubscriber (q1 ++ q2) a (Num dz) st cl) snk
                    (mkScheduler tk nh ar)) ->
  timed dz (mkWorld (mkDelaySubscriber q2 a' (Num dz) st' cl') snk'
                    (mkScheduler tk' nh' ar')).
Proof.
  intros dz q1 q2 a st cl snk tk nh ar a' st' cl' snk' tk' nh' ar' Hm Hle [Hs Hb].
  unfold timed, due_bounded in *; cbn in *. split.
  - eapply StronglySorted_suffix; eassumption.
  - apply Forall_app in Hb. destruct Hb as [_ Hb].
    eapply Forall_impl; [|exact Hb]. cbn.
    intros m (x & Hx & Hx'). exists x. split; [assumption|].
    pose proof (clock_mono Hm tk tk' Hle). lia.
Qed.

Lemma timed_nil : forall dz a d st cl snk sch,
  timed dz (mkWorld (mkDelaySubscriber [] a d st cl) snk sch).
Proof. intros. split; constructor. Qed.

Lemma step_timed : forall dz w ev,
  monotonic -> Inv (Num dz) w -> timed dz w -> timed dz (step w ev).
Proof.
  intros dz w ev Hm H Ht.
  destruct H as [rc vs tk nh Hrc | m q st rc vs h wt tk nh Hrc
                | rc vs tk nh Hrc | a rc vs e tk nh Hrc];
    destruct ev as [v | e' | | h']; subst rc;
    try (crunch; apply timed_nil).
  - crunch. now apply (timed_push dz [] false false false
                         (mkSink (map NextN vs) false []) tk nh []).
  - destruct st; crunch; [exact Ht|].
    change (m :: q ++ ?x) with ((m :: q) ++ x).
    eapply timed_push; eassumption.
  - destruct st; crunch; [exact Ht | apply timed_nil].
  - destruct st; crunch; exact Ht.
  - destruct (Nat.eq_dec h h') as [<-|Hne].
    + rewrite wakeup_armed. cbv zeta.
      pose proof (drain_split (m :: q) tk) as Hsplit.
      pose proof (drain_ticks_bounds (m :: q) tk) as Hb.
      destruct (drain_rest tk (m :: q)) as [|m' r];
        [destruct st; apply timed_nil|].
      rewrite <- Hsplit in Ht.
      eapply timed_suffix; [exact Hm | | exact Ht]. lia.
    + rewrite wakeup_other by assumption. exact Ht.
Qed.

Lemma run_timed : forall dz evs w,
  monotonic -> Inv (Num dz) w -> timed dz w -> timed dz (run w evs).
Proof.
  induction evs as [|ev evs IH]; intros w Hm H Ht; cbn; [assumption|].
  apply IH; [assumption | now apply step_Inv | now apply step_timed].
Qed.

(** C8: for a stage constructed with a delay of [dz] milliseconds, which
    no handler ever changes, and a scheduler whose clock is monotonic,
    the pending queue is sorted by due time in every reachable state:
    every message is due no later than all the messages behind it. *)
Theorem queue_sorted_by_due_time : forall dz n evs,
  monotonic ->
  let w := run (subscribe (Num dz) n) evs in
  subscriber_delay (source w) = Num dz
  /\ StronglySorted due_le (queue (source w)).
Proof.
  intros dz n evs Hm w. split.
  - pose proof (reachable_Inv (Num dz) n evs) as Hinv. fold w in Hinv.
    clearbody w. destruct Hinv; reflexivity.
  - apply (run_timed dz evs (subscribe (Num dz) n) Hm).
    + apply subscribe_Inv.
    + apply timed_nil.
Qed.

(** ** Order preservation *)

Lemma values_of_app : forall l1 l2,
  values_of (l1 ++ l2) = values_of l1 ++ values_of l2.
Proof.
  induction l1 as [|[v|e|] l1 IH]; intros l2; cbn; rewrite ?IH; reflexivity.
Qed.

Lemma values_of_nexts : forall vs, values_of (map NextN vs) = vs.
Proof. induction vs; cbn; congruence. Qed.

Ltac totals :=
  unfold total, delivered, buffered;
  cbn -[Math_max sub add lte drain_rest drain_out drain_ticks nexts];
  rewrite ?nexts_map, ?values_of_app, ?values_of_nexts, ?map_app;
  cbn -[Math_max sub add lte drain_rest drain_out drain_ticks nexts];
  rewrite ?app_nil_r, <- ?app_assoc.

Lemma wakeup_total : forall d m q st rc vs h wt tk nh,
  rc = map NextN vs ->
  total (step (mkWorld (mkDelaySubscriber (m :: q) true d st st)
                       (mkSink rc false [h]) (mkScheduler tk nh [mkAction h wt]))
              (Wakeup h)) = vs ++ map value (m :: q).
Proof.
  intros d m q st rc vs h wt tk nh ->. rewrite wakeup_armed. cbv zeta.
  transitivity (vs ++ map value (drain_out tk (m :: q) ++ drain_rest tk (m :: q)));
    [|now rewrite drain_split].
  destruct (drain_rest tk (m :: q)) as [|m' r]; [destruct st|];
    totals; reflexivity.
Qed.

(** A stopped stage neither accepts nor loses a value. *)
Lemma step_total_stopped : forall d w ev,
  Inv d w -> isStopped (source w) = true ->
  total (step w ev) = total w /\ isStopped (source (step w ev)) = true.
Proof.
  intros d w ev H Hst.
  destruct H as [rc vs tk nh Hrc | m q st rc vs h wt tk nh Hrc
                | rc vs tk nh Hrc | a rc vs e tk nh Hrc];
    cbn in Hst; try discriminate; subst;
    destruct ev as [v | e' | | h']; try (split; reflexivity).
  destruct (Nat.eq_dec h h') as [<-|Hne].
  - split.
    + rewrite (wakeup_total d m q true _ vs) by reflexivity.
      totals. reflexivity.
    + rewrite wakeup_armed. cbv zeta.
      destruct (drain_rest tk (m :: q)); reflexivity.
  - rewrite wakeup_other by assumption. split; reflexivity.
Qed.

Lemma run_total_stopped : forall d evs w,
  Inv d w -> isStopped (source w) = true -> total (run w evs) = total w.
Proof.
  induction evs as [|ev evs IH]; intros w H Hst; [reflexivity|].
  destruct (step_total_stopped d w ev H Hst) as [Ht Hst'].
  change (run w (ev :: evs)) with (run (step w ev) evs).
  rewrite IH; [assumption | now apply step_Inv | assumption].
Qed.

(** A live stage accepts the value of a [next] and loses none. *)
Lemma step_total_live : forall d w ev,
  Inv d w -> isStopped (source w) = false -> is_UpError ev = false ->
  total (step w ev) =
    total w ++ match ev with UpNext v => [v] | _ => [] end
  /\ isStopped (source (step w ev)) =
       match ev with UpComplete => true | _ => false end.
Proof.
  intros d w ev H Hst Hev.
  destruct H as [rc vs tk nh Hrc | m q st rc vs h wt tk nh Hrc
                | rc vs tk nh Hrc | a rc vs e tk nh Hrc];
    cbn in Hst; try discriminate; subst;
    destruct ev as [v | e' | | h']; try discriminate Hev;
    try (split; [totals|crunch]; reflexivity).
  destruct (Nat.eq_dec h h') as [<-|Hne].
  - split.
    + rewrite (wakeup_total d m q false _ vs) by reflexivity.
      totals. reflexivity.
    + rewrite wakeup_armed. cbv zeta.
      destruct (drain_rest tk (m :: q)); reflexivity.
  - rewrite wakeup_other by assumption. split; [totals|]; reflexivity.
Qed.

Lemma run_total_live : forall d evs w,
  Inv d w -> isStopped (source w) = false -> error_free evs = true ->
  total (run w evs) = total w ++ accepted evs.
Proof.
  induction evs as [|ev evs IH]; intros w H Hst Hfree.
  - cbn. now rewrite app_nil_r.
  - change (run w (ev :: evs)) with (run (step w ev) evs).
    cbn in Hfree. apply andb_true_iff in Hfree. destruct Hfree as [Hev Hfree].
    apply negb_true_iff in Hev.
    destruct (step_total_live d w ev H Hst Hev) as [Ht Hst'].
    pose proof (step_Inv d w ev H) as H'.
    destruct ev as [v | e | | h]; try discriminate Hev.
    + rewrite IH by assumption. rewrite Ht, <- app_assoc. reflexivity.
    + rewrite (run_total_stopped d) by assumption. exact Ht.
    + rewrite IH by assumption. rewrite Ht, app_nil_r. reflexivity.
Qed.

(** ** Completion *)

Lemma firstn_add : forall (A : Type) k j (l : list A),
  firstn (k + j) l = firstn k l ++ firstn j (skipn k l).
Proof.
  induction k as [|k IH]; intros j l; cbn; [reflexivity|].
  destruct l as [|x l]; cbn.
  - now rewrite firstn_nil.
  - now rewrite IH.
Qed.

Lemma nexts_app : forall l1 l2, nexts (l1 ++ l2) = nexts l1 ++ nexts l2.
Proof. intros. unfold nexts. apply map_app. Qed.

Lemma step_draining : forall d rc0 q0 w ev,
  Inv d w -> isStopped (source w) = true ->
  draining rc0 q0 w -> draining rc0 q0 (step w ev).
Proof.
  intros d rc0 q0 w ev H Hst Hdr.
  destruct (sink_closed (destination w)) eqn:Hc.
  { now rewrite (step_terminated d). }
  destruct H as [rc vs tk nh Hrc | m q st rc vs h wt tk nh Hrc
                | rc vs tk nh Hrc | a rc vs e tk nh Hrc];
    cbn in Hst, Hc; try discriminate. subst st.
  destruct ev as [v | e' | | h']; try exact Hdr.
  destruct (Nat.eq_dec h h') as [<-|Hne];
    [|now rewrite wakeup_other].
  rewrite wakeup_armed. cbv zeta.
  destruct Hdr as (k & Hk & Hq & Hr & _). cbn in Hq, Hr.
  rewrite app_nil_r in Hr.
  destruct (drain_prefix (m :: q) tk) as (j & Hj & Ho & Hrest).
  rewrite Ho, Hrest, Hq, skipn_skipn.
  assert (Hlen : length (m :: q) = (length q0 - k)%nat).
  { rewrite Hq. apply length_skipn. }
  assert (Hrecv : rc ++ nexts (firstn j (skipn k q0)) =
                  rc0 ++ nexts (firstn (k + j) q0)).
  { rewrite Hr, firstn_add, nexts_app, <- app_assoc. reflexivity. }
  destruct (skipn (j + k) q0) as [|m' r] eqn:Hskip.
  - exists (k + j)%nat. cbn -[nexts]. rewrite Hrecv.
    assert (Hkj : (k + j)%nat = length q0).
    { apply (f_equal (@length _)) in Hskip. rewrite length_skipn in Hskip.
      cbn in Hskip. lia. }
    repeat split; try lia.
    + rewrite Hkj. now rewrite skipn_all.
    + now rewrite <- app_assoc.
  - exists (k + j)%nat. cbn -[nexts]. rewrite Hrecv, app_nil_r.
    repeat split; try lia; try discriminate.
    now rewrite Nat.add_comm.
Qed.

Lemma run_draining : forall d rc0 q0 evs w,
  Inv d w -> isStopped (source w) = true ->
  draining rc0 q0 w -> draining rc0 q0 (run w evs).
Proof.
  induction evs as [|ev evs IH]; intros w H Hst Hdr; [assumption|].
  change (run w (ev :: evs)) with (run (step w ev) evs).
  apply IH.
  - now apply step_Inv.
  - now apply (step_total_stopped d).
  - now apply (step_draining d).
Qed.

(** C3: when the producer completes a live stage whose queue is empty,
    the completion is forwarded to the sink within the call.  When the
    queue is not empty, nothing is forwarded: the stage is stopped, the
    queue and the armed action stay, and from then on, whatever
    happens, the sink has received a prefix of the buffered values, in
    order, followed by the completion only if that prefix is all of
    them; the wakeup that empties the queue delivers the rest and the
    completion. *)
Theorem completion_deferred : forall d n evs,
  let w := run (subscribe d n) evs in
  isStopped (source w) = false ->
  let w1 := step w UpComplete in
  (queue (source w) = [] ->
     received (destination w1) = received (destination w) ++ [CompleteN])
  /\ (queue (source w) <> [] ->
        received (destination w1) = received (destination w)
        /\ queue (source w1) = queue (source w)
        /\ isStopped (source w1) = true
        /\ armed (scheduler w1) = armed (scheduler w)
        /\ armed (scheduler w) <> []
        /\ (forall future,
              draining (received (destination w)) (queue (source w))
                       (run w1 future))
        /\ (forall a, In a (armed (scheduler w1)) ->
              drain_rest (ticks (scheduler w1)) (queue (source w1)) = [] ->
              received (destination (step w1 (Wakeup (handle a)))) =
                received (destination w) ++ nexts (queue (source w)) ++
                [CompleteN])).
Proof.
  intros d n evs w Hst w1.
  pose proof (reachable_Inv d n evs) as Hinv. fold w in Hinv.
  assert (Hinv1 : Inv d w1) by now apply step_Inv.
  subst w1. clearbody w.
  destruct Hinv as [rc vs tk nh Hrc | m q st rc vs h wt tk nh Hrc
                   | rc vs tk nh Hrc | a rc vs e tk nh Hrc];
    cbn in Hst; try discriminate; subst.
  - split; [reflexivity|]. intros Hq. now contradiction Hq.
  - split; [discriminate|]. intros _.
    change (step _ UpComplete) with
      (mkWorld (mkDelaySubscriber (m :: q) true d true true)
               (mkSink (map NextN vs) false [h])
               (mkScheduler tk nh [mkAction h wt])) in *.
    cbn -[drain_rest nexts run step draining].
    repeat split; try discriminate.
    + intros future. apply (run_draining d); [assumption | reflexivity |].
      exists 0%nat. cbn. rewrite app_nil_r. repeat split; [lia | discriminate].
    + intros a [<-|[]] Hdrain. cbn -[drain_rest nexts step] in *.
      rewrite wakeup_armed. cbv zeta.
      pose proof (drain_split (m :: q) tk) as Hsplit.
      rewrite Hdrain in *. rewrite app_nil_r in Hsplit. rewrite Hsplit.
      cbn -[nexts]. now rewrite <- app_assoc.
Qed.

(** ** The configured delay *)

(** C10: for a Date that lies in the past at the one reading of the
    clock that [delay] makes, the computed duration is the negative
    number [+date - scheduler.now()], unclamped (only a number goes
    through [Math.abs]); every stage of the operator keeps it, so each
    message it enqueues is due before the time it arrived at, and the
    dispatch action is scheduled with that negative wait. *)
Theorem past_date_gives_negative_delay : forall date n,
  date < clock n ->
  isValidDate (OfDate (Num date)) = true
  /\ delay (OfDate (Num date)) n = (Num (date - clock n), S n)
  /\ date - clock n < 0
  /\ (forall z k, delay (OfNumber (Num z)) k = (Num (Z.abs z), k))
  /\ (forall k evs v,
        let w := run (subscribe (fst (delay (OfDate (Num date)) n)) k) evs in
        let w' := step w (UpNext v) in
        let now := clock (ticks (scheduler w)) in
        isStopped (source w) = false ->
        subscriber_delay (source w) = Num (date - clock n)
        /\ queue (source w') =
             queue (source w) ++
             [mkDelayMessage (Num (now + (date - clock n))) v]
        /\ now + (date - clock n) < now
        /\ (armed (scheduler w) = [] ->
            armed (scheduler w') =
              [mkAction (next_handle (scheduler w)) (Num (date - clock n))])).
Proof.
  intros date n Hpast. repeat split; try reflexivity; try lia.
  - pose proof (reachable_Inv (Num (date - clock n)) k evs) as Hinv.
    cbn [delay isValidDate isNaN negb to_number fst sub].
    destruct Hinv; reflexivity.
  - apply (next_on_live_stage (Num (date - clock n)));
      [apply reachable_Inv | assumption].
  - apply (next_on_live_stage (Num (date - clock n)));
      [apply reachable_Inv | assumption].
Qed.

(** C1, amended: a negative number given as the delay is replaced by its
    magnitude: for every [dz < 0] the duration that [delay] computes is
    [-dz], which is positive, without reading the clock; a stage built
    with it stamps every message with [scheduler.now() + (-dz)] and
    schedules its dispatch action with the wait [-dz]. *)
Theorem negative_delay_becomes_magnitude : forall dz n,
  dz < 0 ->
  delay (OfNumber (Num dz)) n = (Num (- dz), n)
  /\ 0 < - dz
  /\ (forall k evs v,
        let w := run (subscribe (fst (delay (OfNumber (Num dz)) n)) k) evs in
        let w' := step w (UpNext v) in
        isStopped (source w) = false ->
        queue (source w') =
          queue (source w) ++
          [mkDelayMessage (Num (clock (ticks (scheduler w)) + - dz)) v]
        /\ (armed (scheduler w) = [] ->
            armed (scheduler w') =
              [mkAction (next_handle (scheduler w)) (Num (- dz))])).
Proof.
  intros dz n Hneg.
  assert (Habs : Z.abs dz = - dz) by lia.
  unfold delay. cbn [isValidDate to_number Math_abs fst]. rewrite Habs.
  repeat split; try lia.
  - apply (next_on_live_stage (Num (- dz)));
      [apply reachable_Inv | assumption].
  - apply (next_on_live_stage (Num (- dz)));
      [apply reachable_Inv | assumption].
Qed.

(** ** Further properties of the stage *)

(** *** Going idle *)

Lemma step_handles_used : forall d w ev,
  Inv d w -> handles_used w -> handles_used (step w ev).
Proof.
  intros d w ev H Hu. unfold handles_used in *.
  destruct H as [rc vs tk nh Hrc | m q st rc vs h wt tk nh Hrc
                | rc vs tk nh Hrc | a rc vs e tk nh Hrc];
    destruct ev as [v | e' | | h']; subst rc;
    try (crunch; repeat constructor; cbn; lia);
    try (destruct st; crunch; solve [exact Hu | constructor]).
  destruct (Nat.eq_dec h h') as [<-|Hne].
  - rewrite wakeup_armed. cbv zeta.
    destruct (drain_rest tk (m :: q)) as [|m' r];
      [destruct st; constructor|].
    cbn in *. inversion Hu; subst. repeat constructor. assumption.
  - rewrite wakeup_other by assumption. exact Hu.
Qed.

Lemma run_handles_used : forall d evs w,
  Inv d w -> handles_used w -> handles_used (run w evs).
Proof.
  induction evs as [|ev evs IH]; intros w H Hu; [assumption|].
  change (run w (ev :: evs)) with (run (step w ev) evs).
  apply IH; [now apply step_Inv | now apply (step_handles_used d)].
Qed.

(** X1: a wakeup that empties the queue of a stage whose producer has not
    completed delivers what was buffered and nothing else, unsubscribes
    its own action and clears the flag: the sink stays open with no
    handle registered, nothing is armed, the stage stays live.  The next
    value then schedules a new action, under a handle that differs from
    the old one, with the whole delay as its wait. *)
Theorem dispatch_goes_idle : forall d n evs a v,
  let w := run (subscribe d n) evs in
  In a (armed (scheduler w)) ->
  isStopped (source w) = false ->
  drain_rest (ticks (scheduler w)) (queue (source w)) = [] ->
  let w' := step w (Wakeup (handle a)) in
  received (destination w') =
    received (destination w) ++ nexts (queue (source w))
  /\ sink_closed (destination w') = false
  /\ children (destination w') = []
  /\ armed (scheduler w') = []
  /\ active (source w') = false
  /\ isStopped (source w') = false
  /\ closed (source w') = false
  /\ queue (source w') = []
  /\ armed (scheduler (step w' (UpNext v))) =
       [mkAction (next_handle (scheduler w)) d]
  /\ children (destination (step w' (UpNext v))) =
       [next_handle (scheduler w)]
  /\ next_handle (scheduler w) <> handle a.
Proof.
  intros d n evs a v w Hin Hst Hdrain w'. subst w'.
  pose proof (reachable_Inv d n evs) as Hinv. fold w in Hinv.
  assert (Hu : handles_used w).
  { apply (run_handles_used d); [apply subscribe_Inv | constructor]. }
  clearbody w.
  destruct (armed_inv d w a Hinv Hin)
    as (m & q & st & rc & vs & tk & nh & Hrc & ->).
  cbn -[drain_rest] in Hst, Hdrain. subst st.
  unfold handles_used in Hu. apply Forall_inv in Hu. cbn in Hu.
  rewrite wakeup_armed. cbv zeta.
  pose proof (drain_split (m :: q) tk) as Hsplit.
  rewrite Hdrain in *. rewrite app_nil_r in Hsplit. rewrite Hsplit.
  crunch. repeat split; auto. lia.
Qed.

(** *** A premature wakeup *)

(** X2: a wakeup that finds the head of the queue not due reads the clock
    twice, once for the loop test and once for the wait; it sends nothing
    downstream, leaves the queue as it is and rearms the same action
    with [Math.max(0, head.time - now)] for the second reading. *)
Theorem premature_wakeup_emits_nothing : forall d n evs a m q,
  let w := run (subscribe d n) evs in
  In a (armed (scheduler w)) ->
  queue (source w) = m :: q ->
  due (ticks (scheduler w)) m = false ->
  let w' := step w (Wakeup (handle a)) in
  received (destination w') = received (destination w)
  /\ queue (source w') = m :: q
  /\ armed (scheduler w') =
       [mkAction (handle a)
          (Math_max (Num 0)
             (sub (time m) (Num (clock (S (ticks (scheduler w)))))))]
  /\ ticks (scheduler w') = S (S (ticks (scheduler w)))
  /\ active (source w') = true.
Proof.
  intros d n evs a m q w Hin Hq Hdue w'. subst w'.
  pose proof (reachable_Inv d n evs) as Hinv. fold w in Hinv. clearbody w.
  destruct (armed_inv d w a Hinv Hin)
    as (m0 & q0 & st & rc & vs & tk & nh & Hrc & ->).
  cbn in Hq, Hdue. injection Hq as -> ->.
  rewrite wakeup_armed. cbv zeta. cbn [drain_rest drain_out drain_ticks].
  rewrite Hdue. cbn -[Math_max sub]. rewrite app_nil_r. repeat split.
Qed.

(** *** Due times *)

Lemma stamped_nil : forall dz a d st cl snk sch,
  stamped dz (mkWorld (mkDelaySubscriber [] a d st cl) snk sch).
Proof. intros. constructor. Qed.

Lemma stamped_later : forall dz q a d st cl snk tk nh ar
                             a' d' st' cl' snk' tk' nh' ar',
  (tk <= tk')%nat ->
  stamped dz (mkWorld (mkDelaySubscriber q a d st cl) snk
                      (mkScheduler tk nh ar)) ->
  stamped dz (mkWorld (mkDelaySubscriber q a' d' st' cl') snk'
                      (mkScheduler tk' nh' ar')).
Proof.
  intros dz q a d st cl snk tk nh ar a' d' st' cl' snk' tk' nh' ar' Hle Hs.
  unfold stamped in *; cbn in *.
  eapply Forall_impl; [|exact Hs]. cbn.
  intros m (k & Hk & Ht). exists k. split; [lia | assumption].
Qed.

Lemma stamped_push : forall dz q a d st cl snk tk nh ar
                            a' d' st' cl' snk' nh' ar' v,
  stamped dz (mkWorld (mkDelaySubscriber q a d st cl) snk
                      (mkScheduler tk nh ar)) ->
  stamped dz (mkWorld (mkDelaySubscriber
                         (q ++ [mkDelayMessage (add (Num (clock tk)) (Num dz)) v])
                         a' d' st' cl') snk'
                      (mkScheduler (S tk) nh' ar')).
Proof.
  intros dz q a d st cl snk tk nh ar a' d' st' cl' snk' nh' ar' v Hs.
  unfold stamped in *; cbn in *.
  apply Forall_app. split.
  - eapply Forall_impl; [|exact Hs]. cbn.
    intros m (k & Hk & Ht). exists k. split; [lia | assumption].
  - constructor; [|constructor]. exists tk. cbn. split; [lia | reflexivity].
Qed.

Lemma stamped_suffix : forall dz q1 q2 a d st cl snk tk nh ar
                              a' d' st' cl' snk' tk' nh' ar',
  (tk <= tk')%nat ->
  stamped dz (mkWorld (mkDelaySubscriber (q1 ++ q2) a d st cl) snk
                      (mkScheduler tk nh ar)) ->
  stamped dz (mkWorld (mkDelaySubscriber q2 a' d' st' cl') snk'
                      (mkScheduler tk' nh' ar')).
Proof.
  intros dz q1 q2 a d st cl snk tk nh ar a' d' st' cl' snk' tk' nh' ar' Hle Hs.
  unfold stamped in *; cbn in *.
  apply Forall_app in Hs. destruct Hs as [_ Hs].
  eapply Forall_impl; [|exact Hs]. cbn.
  intros m (k & Hk & Ht). exists k. split; [lia | assumption].
Qed.

Lemma step_stamped : forall dz w ev,
  Inv (Num dz) w -> stamped dz w -> stamped dz (step w ev).
Proof.
  intros dz w ev H Hs.
  destruct H as [rc vs tk nh Hrc | m q st rc vs h wt tk nh Hrc
                | rc vs tk nh Hrc | a rc vs e tk nh Hrc];
    destruct ev as [v | e' | | h']; subst rc;
    try (crunch; apply stamped_nil).
  - crunch. eapply (stamped_push dz []). exact Hs.
  - destruct st; crunch; [exact Hs|].
    change (m :: q ++ ?x) with ((m :: q) ++ x).
    eapply stamped_push; eassumption.
  - destruct st; crunch; [exact Hs | apply stamped_nil].
  - destruct st; crunch; exact Hs.
  - destruct (Nat.eq_dec h h') as [<-|Hne].
    + rewrite wakeup_armed. cbv zeta.
      pose proof (drain_split (m :: q) tk) as Hsplit.
      pose proof (drain_ticks_bounds (m :: q) tk) as Hb.
      destruct (drain_rest tk (m :: q)) as [|m' r];
        [destruct st; apply stamped_nil|].
      rewrite <- Hsplit in Hs.
      eapply stamped_suffix; [|exact Hs]. lia.
    + rewrite wakeup_other by assumption. exact Hs.
Qed.



(** What the loop emits was due at one of the readings it made. *)
Lemma drain_out_due : forall q n m,
  In m (drain_out n q) ->
  exists k, (n <= k < drain_ticks n q)%nat /\ due k m = true.
Proof.
  induction q as [|m0 q IH]; intros n m; cbn; [contradiction|].
  destruct (due n m0) eqn:Hd; [|contradiction].
  pose proof (drain_ticks_bounds q (S n)) as Hb.
  intros [<-|Hin].
  - exists n. split; [lia | assumption].
  - destruct (IH _ _ Hin) as (k & Hk & Hdue). exists k. split; [lia | assumption].
Qed.

Lemma stamped_by_nil : forall d0 a d st cl snk sch,
  stamped_by d0 (mkWorld (mkDelaySubscriber [] a d st cl) snk sch).
Proof. intros. constructor. Qed.

Lemma stamped_by_push : forall d0 q a d st cl snk tk nh ar
                               a' d' st' cl' snk' nh' ar' v,
  stamped_by d0 (mkWorld (mkDelaySubscriber q a d st cl) snk
                         (mkScheduler tk nh ar)) ->
  stamped_by d0 (mkWorld (mkDelaySubscriber
                            (q ++ [mkDelayMessage (add (Num (clock tk)) d0) v])
                            a' d' st' cl') snk'
                         (mkScheduler (S tk) nh' ar')).
Proof.
  intros d0 q a d st cl snk tk nh ar a' d' st' cl' snk' nh' ar' v Hs.
  unfold stamped_by in *; cbn -[add] in *.
  apply Forall_app. split.
  - eapply Forall_impl; [|exact Hs]. cbn -[add].
    intros m (k & Hk & Ht). exists k. split; [lia | assumption].
  - constructor; [|constructor]. exists tk. cbn -[add]. split; [lia | reflexivity].
Qed.

Lemma stamped_by_suffix : forall d0 q1 q2 a d st cl snk tk nh ar
                                 a' d' st' cl' snk' tk' nh' ar',
  (tk <= tk')%nat ->
  stamped_by d0 (mkWorld (mkDelaySubscriber (q1 ++ q2) a d st cl) snk
                         (mkScheduler tk nh ar)) ->
  stamped_by d0 (mkWorld (mkDelaySubscriber q2 a' d' st' cl') snk'
                         (mkScheduler tk' nh' ar')).
Proof.
  intros d0 q1 q2 a d st cl snk tk nh ar a' d' st' cl' snk' tk' nh' ar' Hle Hs.
  unfold stamped_by in *; cbn -[add] in *.
  apply Forall_app in Hs. destruct Hs as [_ Hs].
  eapply Forall_impl; [|exact Hs]. cbn -[add].
  intros m (k & Hk & Ht). exists k. split; [lia | assumption].
Qed.

Lemma step_stamped_by : forall d w ev,
  Inv d w -> stamped_by d w -> stamped_by d (step w ev).
Proof.
  intros d w ev H Hs.
  destruct H as [rc vs tk nh Hrc | m q st rc vs h wt tk nh Hrc
                | rc vs tk nh Hrc | a rc vs e tk nh Hrc];
    destruct ev as [v | e' | | h']; subst rc;
    try (crunch; apply stamped_by_nil).
  - crunch. eapply (stamped_by_push d []). exact Hs.
  - destruct st; crunch; [exact Hs|].
    change (m :: q ++ ?x) with ((m :: q) ++ x).
    eapply stamped_by_push; eassumption.
  - destruct st; crunch; [exact Hs | apply stamped_by_nil].
  - destruct st; crunch; exact Hs.
  - destruct (Nat.eq_dec h h') as [<-|Hne].
    + rewrite wakeup_armed. cbv zeta.
      pose proof (drain_split (m :: q) tk) as Hsplit.
      pose proof (drain_ticks_bounds (m :: q) tk) as Hb.
      destruct (drain_rest tk (m :: q)) as [|m' r];
        [destruct st; apply stamped_by_nil|].
      rewrite <- Hsplit in Hs.
      eapply stamped_by_suffix; [|exact Hs]. lia.
    + rewrite wakeup_other by assumption. exact Hs.
Qed.

Lemma reachable_stamped_by : forall d n evs,
  stamped_by d (run (subscribe d n) evs).
Proof.
  intros d n evs.
  assert (H : forall w, Inv d w -> stamped_by d w -> stamped_by d (run w evs)).
  { induction evs as [|ev evs IH]; intros w Hinv Hs; [assumption|].
    change (run w (ev :: evs)) with (run (step w ev) evs).
    apply IH; [now apply step_Inv | now apply step_stamped_by]. }
  apply H; [apply subscribe_Inv | constructor].
Qed.

(** X3: a stage never emits a value before its due time: whatever a
    wakeup sends downstream is a prefix of the queue, and each message
    of it carries the stamp [scheduler.now() + delay] that [_next] put
    on it at an earlier reading of the clock, and passed the test of the
    loop at a reading of the clock made during this wakeup, where its
    due time, a number, was not after the clock. *)
Theorem no_value_before_its_due_time : forall d n evs a,
  let w := run (subscribe d n) evs in
  In a (armed (scheduler w)) ->
  let w' := step w (Wakeup (handle a)) in
  exists out,
    queue (source w) = out ++ queue (source w')
    /\ (received (destination w') = received (destination w) ++ nexts out
        \/ received (destination w') =
             received (destination w) ++ nexts out ++ [CompleteN])
    /\ Forall (fun m => exists ka kd x,
                 (ka < ticks (scheduler w) <= kd)%nat
                 /\ (kd < ticks (scheduler w'))%nat
                 /\ time m = add (Num (clock ka)) d
                 /\ due kd m = true
                 /\ time m = Num x
                 /\ x <= clock kd) out.
Proof.
  intros d n evs a w Hin w'. subst w'.
  pose proof (reachable_Inv d n evs) as Hinv.
  pose proof (reachable_stamped_by d n evs) as Hs.
  fold w in Hinv, Hs. clearbody w.
  destruct (armed_inv _ w a Hinv Hin)
    as (m & q & st & rc & vs & tk & nh & Hrc & ->).
  exists (drain_out tk (m :: q)).
  rewrite wakeup_armed. cbv zeta.
  pose proof (drain_split (m :: q) tk) as Hsplit.
  assert (Hall : forall tk',
    (drain_ticks tk (m :: q) <= tk')%nat ->
    Forall (fun m0 => exists ka kd x,
              (ka < tk <= kd)%nat /\ (kd < tk')%nat
              /\ time m0 = add (Num (clock ka)) d
              /\ due kd m0 = true
              /\ time m0 = Num x
              /\ x <= clock kd) (drain_out tk (m :: q))).
  { intros tk' Htk'. apply Forall_forall. intros m0 Hin0.
    destruct (drain_out_due _ _ _ Hin0) as (kd & Hkd & Hdue).
    unfold stamped_by in Hs. cbn [queue source ticks scheduler] in Hs.
    rewrite Forall_forall in Hs.
    assert (Hin0' : In m0 (m :: q)).
    { rewrite <- Hsplit. apply in_or_app. now left. }
    destruct (Hs m0 Hin0') as (ka & Hka & Ht).
    assert (Hx : exists x, time m0 = Num x /\ x <= clock kd).
    { unfold due in Hdue. destruct (time m0) as [x|]; [|discriminate].
      exists x. split; [reflexivity|]. cbn in Hdue.
      apply Z.leb_le in Hdue. lia. }
    destruct Hx as (x & Hx & Hle).
    exists ka, kd, x. repeat split; try lia; assumption. }
  destruct (drain_rest tk (m :: q)) as [|m' r]; [destruct st|];
    cbn -[drain_out drain_ticks nexts add].
  - rewrite app_nil_r in *. split; [now rewrite Hsplit|]. split.
    + right. now rewrite <- app_assoc.
    + apply Hall. lia.
  - rewrite app_nil_r in *. split; [now rewrite Hsplit|]. split.
    + now left.
    + apply Hall. lia.
  - split; [now rewrite Hsplit|]. split.
    + now left.
    + apply Hall. lia.
Qed.

(** X4: with a monotonic clock, a wakeup at wall time [t] (every reading
    of the clock during the wakeup returns [t]) delivers every message
    that is due at [t], not only the head of the queue: the messages it
    takes off the queue are all due at [t] and none of the messages it
    leaves is. *)
Theorem wakeup_leaves_nothing_due : forall dz n evs a t,
  monotonic ->
  let w := run (subscribe (Num dz) n) evs in
  In a (armed (scheduler w)) ->
  (forall k, (ticks (scheduler w) <= k <=
              ticks (scheduler w) + length (queue (source w)))%nat ->
             clock k = t) ->
  let w' := step w (Wakeup (handle a)) in
  exists out,
    queue (source w) = out ++ queue (source w')
    /\ Forall (fun m => exists x, time m = Num x /\ x <= t) out
    /\ Forall (fun m => exists x, time m = Num x /\ t < x) (queue (source w')).
Proof.
  intros dz n evs a t Hm w Hin Hclock w'. subst w'.
  pose proof (reachable_Inv (Num dz) n evs) as Hinv.
  assert (Ht : timed dz w).
  { apply run_timed; [assumption | apply subscribe_Inv | apply timed_nil]. }
  fold w in Hinv. clearbody w.
  destruct (armed_inv _ w a Hinv Hin)
    as (m & q & st & rc & vs & tk & nh & Hrc & ->).
  destruct Ht as [Hsorted Hbound]. unfold due_bounded in Hbound.
  cbn [queue source ticks scheduler] in Hsorted, Hbound, Hclock.
  exists (drain_out tk (m :: q)).
  pose proof (drain_split (m :: q) tk) as Hsplit.
  pose proof (drain_ticks_bounds (m :: q) tk) as Hb.
  assert (Hnum : forall m0, In m0 (m :: q) -> exists x, time m0 = Num x).
  { intros m0 Hin0. rewrite Forall_forall in Hbound.
    destruct (Hbound m0 Hin0) as (x & Hx & _). now exists x. }
  assert (Hout : Forall (fun m0 => exists x, time m0 = Num x /\ x <= t)
                        (drain_out tk (m :: q))).
  { apply Forall_forall. intros m0 Hin0.
    destruct (drain_out_due _ _ _ Hin0) as (kd & Hkd & Hdue).
    destruct (Hnum m0) as (x & Hx).
    { rewrite <- Hsplit. apply in_or_app. now left. }
    exists x. split; [assumption|].
    unfold due in Hdue. rewrite Hx, (Hclock kd) in Hdue by lia.
    cbn in Hdue. apply Z.leb_le in Hdue. lia. }
  assert (Hrest : Forall (fun m0 => exists x, time m0 = Num x /\ t < x)
                         (drain_rest tk (m :: q))).
  { destruct (drain_rest tk (m :: q)) as [|m' r] eqn:Hr; [constructor|].
    destruct (drain_exit _ _ _ _ Hr) as (k & Hk & Hticks & Hdue).
    rewrite <- Hsplit in Hsorted.
    apply StronglySorted_suffix in Hsorted.
    destruct (Hnum m') as (x & Hx).
    { rewrite <- Hsplit. apply in_or_app. right. now left. }
    assert (Hlt : t < x).
    { unfold due in Hdue. rewrite Hx, (Hclock k) in Hdue by lia.
      cbn in Hdue. apply Z.leb_gt in Hdue. lia. }
    constructor; [now exists x|].
    inversion Hsorted as [|? ? _ Hall]; subst.
    eapply Forall_impl; [|exact Hall]. cbn.
    intros m0 Hle. unfold due_le in Hle. rewrite Hx in Hle.
    destruct (time m0) as [y|]; [|contradiction].
    exists y. split; [reflexivity | lia]. }
  rewrite wakeup_armed. cbv zeta.
  destruct (drain_rest tk (m :: q)) as [|m' r]; [destruct st|];
    cbn -[drain_out]; repeat split; auto;
    try (rewrite app_nil_r in Hsplit; now rewrite app_nil_r).
Qed.

(** *** The waits the scheduler is asked for *)

Lemma step_waits : forall dz w ev,
  Inv (Num dz) w -> stamped dz w ->
  Forall (wait_ok dz) (armed (scheduler w)) ->
  Forall (wait_ok dz) (armed (scheduler (step w ev))).
Proof.
  intros dz w ev H Hs Hw.
  destruct H as [rc vs tk nh Hrc | m q st rc vs h wt tk nh Hrc
                | rc vs tk nh Hrc | a rc vs e tk nh Hrc];
    destruct ev as [v | e' | | h']; subst rc;
    try (crunch; solve [constructor | repeat constructor]);
    try (destruct st; crunch; solve [exact Hw | constructor]).
  destruct (Nat.eq_dec h h') as [<-|Hne].
  - rewrite wakeup_armed. cbv zeta.
    pose proof (drain_split (m :: q) tk) as Hsplit.
    destruct (drain_rest tk (m :: q)) as [|m' r];
      [destruct st; constructor|].
    unfold stamped in Hs. cbn [queue source ticks scheduler] in Hs.
    rewrite <- Hsplit in Hs. apply Forall_app in Hs. destruct Hs as [_ Hs].
    apply Forall_inv in Hs. destruct Hs as (k & _ & Ht).
    cbn -[Math_max sub drain_ticks]. rewrite Ht. cbn.
    constructor; [|constructor]. right. cbn. eexists. split; [reflexivity|].
    lia.
  - rewrite wakeup_other by assumption. exact Hw.
Qed.

Lemma run_waits : forall dz evs w,
  Inv (Num dz) w -> stamped dz w ->
  Forall (wait_ok dz) (armed (scheduler w)) ->
  Forall (wait_ok dz) (armed (scheduler (run w evs))).
Proof.
  induction evs as [|ev evs IH]; intros w H Hs Hw; [assumption|].
  change (run w (ev :: evs)) with (run (step w ev) evs).
  apply IH; [now apply step_Inv | now apply step_stamped | now apply step_waits].
Qed.

(** X5: the wait of every armed action is the configured delay, which
    [_schedule] passes on as it is, or a non-negative number, which
    [dispatch] computes with [Math.max(0, ...)]; so a stage with a
    non-negative delay never asks the scheduler for a negative wait. *)
Theorem armed_wait_is_delay_or_nonnegative : forall dz n evs,
  let w := run (subscribe (Num dz) n) evs in
  Forall (wait_ok dz) (armed (scheduler w))
  /\ (0 <= dz ->
      Forall (fun a => exists x, wait a = Num x /\ 0 <= x)
             (armed (scheduler w))).
Proof.
  intros dz n evs w.
  assert (Hw : Forall (wait_ok dz) (armed (scheduler w))).
  { apply run_waits; [apply subscribe_Inv | constructor | constructor]. }
  split; [exact Hw|]. intros Hdz.
  eapply Forall_impl; [|exact Hw]. cbn.
  intros a [Ha | Ha]; [|exact Ha]. exists dz. split; assumption.
Qed.

(** *** A delay that is not a number *)

Lemma drain_never_due : forall q n,
  Forall (fun m => time m = NaN) q ->
  drain_out n q = [] /\ drain_rest n q = q.
Proof.
  intros [|m q] n H; cbn; [split; reflexivity|].
  apply Forall_inv in H. unfold due. rewrite H. cbn. split; reflexivity.
Qed.

Lemma step_never_due : forall w ev,
  Inv NaN w -> never_due w -> delivered w = [] ->
  never_due (step w ev) /\ delivered (step w ev) = [].
Proof.
  intros w ev H Hn Hd. unfold never_due, delivered in *.
  destruct H as [rc vs tk nh Hrc | m q st rc vs h wt tk nh Hrc
                | rc vs tk nh Hrc | a rc vs e tk nh Hrc];
    subst rc; cbn in Hd, Hn;
    rewrite ?values_of_app, ?values_of_nexts in Hd; cbn in Hd;
    rewrite ?app_nil_r in Hd; subst vs;
    destruct ev as [v | e' | | h'];
    try (crunch; split; [repeat constructor | reflexivity]);
    try (destruct st; crunch; split;
         solve [exact Hn | reflexivity | constructor
               | change (m :: q ++ ?x) with ((m :: q) ++ x);
                 apply Forall_app; split; [exact Hn | repeat constructor]]).
  destruct (Nat.eq_dec h h') as [<-|Hne].
  - rewrite wakeup_armed. cbv zeta.
    destruct (drain_never_due (m :: q) tk Hn) as [Ho Hr].
    rewrite Ho, Hr. cbn. split; [exact Hn | reflexivity].
  - rewrite wakeup_other by assumption. split; [exact Hn | reflexivity].
Qed.

Lemma run_never_due : forall evs w,
  Inv NaN w -> never_due w -> delivered w = [] ->
  delivered (run w evs) = [].
Proof.
  induction evs as [|ev evs IH]; intros w H Hn Hd; [assumption|].
  change (run w (ev :: evs)) with (run (step w ev) evs).
  destruct (step_never_due w ev H Hn Hd) as [Hn' Hd'].
  apply IH; [now apply step_Inv | assumption | assumption].
Qed.

(** X6: an argument whose number is [NaN], an invalid Date or the number
    [NaN] itself, is not a valid Date and goes through [Math.abs]: the
    computed delay is [NaN] and the clock is not read.  A stage built
    with it never emits a value: every due time is [NaN], the loop test
    fails, and when the producer signals no error all the values it sent
    stay in the queue. *)
Theorem nan_delay_never_emits : forall arg n k evs,
  isNaN (to_number arg) = true ->
  let w := run (subscribe (fst (delay arg n)) k) evs in
  delay arg n = (NaN, n)
  /\ delivered w = []
  /\ (error_free evs = true -> buffered w = accepted evs).
Proof.
  intros arg n k evs Hnan w.
  assert (Hdelay : delay arg n = (NaN, n)).
  { destruct arg as [[z|]|[z|]]; cbn in Hnan; try discriminate; reflexivity. }
  subst w. rewrite Hdelay. cbn [fst].
  assert (Hd : delivered (run (subscribe NaN k) evs) = []).
  { apply run_never_due; [apply subscribe_Inv | constructor | reflexivity]. }
  repeat split; [exact Hd|].
  intros Hfree.
  pose proof (run_total_live NaN evs (subscribe NaN k)
                (subscribe_Inv NaN k) eq_refl Hfree) as Htot.
  unfold total in Htot. rewrite Hd in Htot. exact Htot.
Qed.

(** *** A Date as the delay *)

(** X7: with a valid Date as the delay, a value that arrives at clock
    time [now] is due at the date plus the time that has passed since
    [delay] read the clock: the whole stream is shifted by the distance
    from that reading to the date, and a value that arrives while the
    clock still shows that reading is due at the date itself. *)
Theorem date_delay_shifts_to_the_date : forall date n k evs v,
  let w := run (subscribe (fst (delay (OfDate (Num date)) n)) k) evs in
  isStopped (source w) = false ->
  let now := clock (ticks (scheduler w)) in
  queue (source (step w (UpNext v))) =
    queue (source w) ++ [mkDelayMessage (Num (date + (now - clock n))) v]
  /\ (now = clock n ->
      queue (source (step w (UpNext v))) =
        queue (source w) ++ [mkDelayMessage (Num date) v]).
Proof.
  intros date n k evs v w Hst now.
  assert (H : queue (source (step w (UpNext v))) =
              queue (source w) ++
              [mkDelayMessage (Num (date + (now - clock n))) v]).
  { destruct (next_on_live_stage (Num (date - clock n)) w v) as (Hq & _);
      [apply reachable_Inv | assumption |].
    rewrite Hq. cbn [add]. subst now.
    replace (clock (ticks (scheduler w)) + (date - clock n))
      with (date + (clock (ticks (scheduler w)) - clock n)) by lia.
    reflexivity. }
  split; [exact H|]. intros Hnow. rewrite H, Hnow.
  replace (date + (clock n - clock n)) with date by lia. reflexivity.
Qed.

(** *** A late wakeup *)

(** X8: with a monotonic clock, once the clock has reached the due time
    of every buffered message, one wakeup of the armed action delivers
    all of them, in order, empties the queue and leaves nothing armed;
    the completion follows them exactly when the producer has completed. *)
Theorem late_wakeup_delivers_everything : forall d n evs a,
  monotonic ->
  let w := run (subscribe d n) evs in
  In a (armed (scheduler w)) ->
  Forall (fun m => exists x, time m = Num x /\
                             x <= clock (ticks (scheduler w)))
         (queue (source w)) ->
  let w' := step w (Wakeup (handle a)) in
  queue (source w') = []
  /\ armed (scheduler w') = []
  /\ active (source w') = false
  /\ received (destination w') =
       received (destination w) ++ nexts (queue (source w)) ++
       (if isStopped (source w) then [CompleteN] else []).
Proof.
  intros d n evs a Hm w Hin Hdue w'. subst w'.
  pose proof (reachable_Inv d n evs) as Hinv. fold w in Hinv. clearbody w.
  destruct (armed_inv d w a Hinv Hin)
    as (m & q & st & rc & vs & tk & nh & Hrc & ->).
  cbn [queue source ticks scheduler isStopped] in *.
  assert (Hdrain : drain_rest tk (m :: q) = []).
  { apply drain_all_due. intros m0 k0 Hin0 Hk0.
    rewrite Forall_forall in Hdue. destruct (Hdue m0 Hin0) as (x & Hx & Hle).
    unfold due. rewrite Hx. cbn. apply Z.leb_le.
    pose proof (clock_mono Hm tk k0 Hk0). lia. }
  rewrite wakeup_armed. cbv zeta.
  pose proof (drain_split (m :: q) tk) as Hsplit.
  rewrite Hdrain in *. rewrite app_nil_r in Hsplit. rewrite Hsplit.
  destruct st; cbn -[nexts]; repeat split;
    rewrite ?app_nil_r, <- ?app_assoc; reflexivity.
Qed.

(** *** Spacing *)

Lemma run_keeps_going : forall d evs w,
  Inv d w -> isStopped (source w) = false -> keeps_going evs = true ->
  isStopped (source (run w evs)) = false.
Proof.
  induction evs as [|ev evs IH]; intros w H Hst Hk; [assumption|].
  change (run w (ev :: evs)) with (run (step w ev) evs).
  cbn in Hk. apply andb_true_iff in Hk. destruct Hk as [Hev Hk].
  apply IH; [now apply step_Inv | | assumption].
  destruct (step_total_live d w ev H Hst) as [_ Hst'].
  - destruct ev; try reflexivity; discriminate.
  - rewrite Hst'. destruct ev; try reflexivity; discriminate.
Qed.

(** X9: the intervals between the values are preserved where the
    additions of the code are exact: for a value that arrives at clock
    time [t1] and a later one that arrives at [t2] while the producer
    keeps going, whatever wakeups and values come in between, with the
    delay, the two times and the two sums within the safe integers,
    the due times of the two messages differ by [t2 - t1]. *)
Theorem spacing_preserved : forall dz n evs v1 mid v2,
  let w := run (subscribe (Num dz) n) evs in
  let w1 := step w (UpNext v1) in
  let w2 := run w1 mid in
  let w3 := step w2 (UpNext v2) in
  let t1 := clock (ticks (scheduler w)) in
  let t2 := clock (ticks (scheduler w2)) in
  isStopped (source w) = false ->
  keeps_going mid = true ->
  safe_integer dz ->
  safe_integer t1 -> safe_integer (t1 + dz) ->
  safe_integer t2 -> safe_integer (t2 + dz) ->
  exists x1 x2,
    queue (source w1) = queue (source w) ++ [mkDelayMessage (Num x1) v1]
    /\ queue (source w3) = queue (source w2) ++ [mkDelayMessage (Num x2) v2]
    /\ x2 - x1 = t2 - t1.
Proof.
  intros dz n evs v1 mid v2 w w1 w2 w3 t1 t2 Hst Hmid _ _ _ _ _.
  pose proof (reachable_Inv (Num dz) n evs) as Hinv. fold w in Hinv.
  destruct (next_on_live_stage (Num dz) w v1 Hinv Hst)
    as (Hq1 & _ & _ & _ & _ & Hst1 & _).
  assert (Hinv2 : Inv (Num dz) w2).
  { apply run_Inv. now apply step_Inv. }
  assert (Hst2 : isStopped (source w2) = false).
  { apply (run_keeps_going (Num dz)); [now apply step_Inv | exact Hst1 | exact Hmid]. }
  destruct (next_on_live_stage (Num dz) w2 v2 Hinv2 Hst2) as (Hq2 & _).
  exists (t1 + dz), (t2 + dz). repeat split; [exact Hq1 | exact Hq2 | lia].
Qed.

(** *** Runs with an error *)

Lemma error_on_live_stage : forall d w e,
  Inv d w -> isStopped (source w) = false ->
  sink_closed (destination (step w (UpError e))) = true
  /\ delivered (step w (UpError e)) = delivered w.
Proof.
  intros d w e H Hst. unfold delivered.
  destruct H; cbn in Hst; try discriminate; subst; crunch;
    rewrite values_of_app; cbn; rewrite app_nil_r; split; reflexivity.
Qed.

Lemma run_delivers_prefix : forall d evs w,
  Inv d w -> isStopped (source w) = false ->
  exists rest, delivered (run w evs) ++ rest = total w ++ accepted evs.
Proof.
  induction evs as [|ev evs IH]; intros w H Hst.
  - exists (buffered w). cbn. now rewrite app_nil_r.
  - change (run w (ev :: evs)) with (run (step w ev) evs).
    pose proof (step_Inv d w ev H) as H'.
    destruct ev as [v | e | | h].
    + destruct (step_total_live d w (UpNext v) H Hst eq_refl) as [Ht Hst'].
      destruct (IH _ H' Hst') as (rest & Hrest).
      exists rest. rewrite Hrest, Ht, <- app_assoc. reflexivity.
    + destruct (error_on_live_stage d w e H Hst) as [Hc Hd].
      rewrite (run_terminated d) by assumption.
      exists (buffered w). rewrite Hd. cbn. now rewrite app_nil_r.
    + destruct (step_total_live d w UpComplete H Hst eq_refl) as [Ht Hst'].
      exists (buffered (run (step w UpComplete) evs)).
      fold (total (run (step w UpComplete) evs)).
      rewrite (run_total_stopped d) by assumption.
      rewrite Ht. reflexivity.
    + destruct (step_total_live d w (Wakeup h) H Hst eq_refl) as [Ht Hst'].
      destruct (IH _ H' Hst') as (rest & Hrest).
      exists rest. rewrite Hrest, Ht, app_nil_r. reflexivity.
Qed.

(** X10: in every run, with or without an error from the producer, the
    values the sink has received are a prefix of the values the producer
    sent before it completed or failed, in the order it sent them: the
    stage never emits a value it was not sent, never repeats and never
    reorders one. *)
Theorem delivered_is_prefix_of_sent : forall d n evs,
  exists rest,
    delivered (run (subscribe d n) evs) ++ rest = accepted evs.
Proof.
  intros d n evs.
  destruct (run_delivers_prefix d evs (subscribe d n)
              (subscribe_Inv d n) eq_refl) as (rest & H).
  exists rest. exact H.
Qed.

(** ** Delivery *)






End DelayOperator.

Arguments mkDelayMessage {T} time value.
Arguments time {T} d.
Arguments value {T} d.
Arguments queue {T} d.
Arguments active {T} d.
Arguments subscriber_delay {T} d.
Arguments isStopped {T} d.
Arguments closed {T} d.
Arguments NextN {T E} v.
Arguments ErrorN {T E} e.
Arguments CompleteN {T E}.
Arguments received {T E} s.
Arguments sink_closed {T E} s.
Arguments children {T E} s.
Arguments source {T E} w.
Arguments destination {T E} w.
Arguments scheduler {T E} w.
Arguments UpNext {T E} v.
Arguments UpError {T E} e.
Arguments UpComplete {T E}.
Arguments Wakeup {T E} h.
Arguments step {T E} clock w ev.
Arguments run {T E} clock w evs.
Arguments delivered {T E} w.
Arguments buffered {T E} w.
Arguments failed {T E} w.
Arguments draining {T E} rc0 q0 w.
Arguments due_le {T} m1 m2.
Arguments accepted {T E} evs.
Arguments error_free {T E} evs.

(** ** Example runs *)

(** C1, as stated, fails: the delay [-5] does not become [0] but [5]; a
    value that arrives at time 100 is due at 105 and the dispatch action
    waits 5. *)
Lemma negative_delay_is_not_clamped :
  let delayFor := fst (delay (clock_frozen 100) (OfNumber (Num (-5))) 0) in
  let w := run (clock_frozen 100) (subscribe string string delayFor 0)
               [UpNext "a"%string] in
  delayFor = Num 5
  /\ delayFor <> Num 0
  /\ queue (source w) = [mkDelayMessage (Num 105) "a"%string]
  /\ armed (scheduler w) = [mkAction 0 (Num 5)].
Proof.
  cbv zeta. repeat split; try reflexivity. discriminate.
Qed.

Lemma negative_delay_becomes_magnitude_witness :
  -5 < 0
  /\ delay (clock_frozen 100) (OfNumber (Num (-5))) 0 = (Num 5, 0%nat).
Proof.
  split; [lia|].
  destruct (negative_delay_becomes_magnitude string string (clock_frozen 100)
              (-5) 0) as (H & _); [lia|].
  exact H.
Defined.

(** C5, as stated, fails: after a value and an error the Activity Flag is
    still true, and no dispatch action is armed. *)
Lemma activity_flag_stale_after_error :
  let w := run clock_steps (subscribe string string (Num 15) 0)
               [UpNext "a"%string; UpError "boom"%string] in
  active (source w) = true
  /\ armed (scheduler w) = []
  /\ ~ (active (source w) = true <-> armed (scheduler w) <> []).
Proof.
  cbv zeta. repeat split.
  intros [H _]. now apply H.
Qed.

Lemma enqueue_appends_and_arms_witness :
  let w := run clock_steps (subscribe string string (Num 15) 0) [UpNext "a"%string] in
  isStopped (source w) = false
  /\ queue (source (step clock_steps w (UpNext "b"%string))) =
       [mkDelayMessage (Num 15) "a"%string; mkDelayMessage (Num 25) "b"%string].
Proof.
  intros w. split; [reflexivity|].
  destruct (enqueue_appends_and_arms string string clock_steps (Num 15) 0
              [UpNext "a"%string] "b"%string) as (H & _); [reflexivity|].
  exact H.
Defined.

Lemma error_clears_and_forwards_witness :
  let w := run clock_steps (subscribe string string (Num 15) 0)
               [UpNext "a"%string; UpNext "b"%string] in
  isStopped (source w) = false
  /\ received (destination (step clock_steps w (UpError "boom"%string))) =
       [ErrorN "boom"%string].
Proof.
  intros w. split; [reflexivity|].
  destruct (error_clears_and_forwards string string clock_steps (Num 15) 0
              [UpNext "a"%string; UpNext "b"%string] "boom"%string) as (_ & H & _); [reflexivity|].
  exact H.
Defined.

Lemma dispatch_completes_when_stopped_witness :
  let w := run clock_hold (subscribe string string (Num 5) 0)
               [UpNext "a"%string; UpNext "b"%string; UpComplete] in
  (In (mkAction 0 (Num 5)) (armed (scheduler w))
   /\ isStopped (source w) = true)
  /\ received (destination (step clock_hold w (Wakeup 0))) =
       [NextN "a"%string; NextN "b"%string; CompleteN].
Proof.
  intros w. split; [split; [now left | reflexivity]|].
  destruct (dispatch_completes_when_stopped string string clock_hold (Num 5) 0
              [UpNext "a"%string; UpNext "b"%string; UpComplete] (mkAction 0 (Num 5)))
    as (H & _); [now left | reflexivity | reflexivity |].
  exact H.
Defined.

Lemma dispatch_rearms_witness :
  let w := run clock_steps (subscribe string string (Num 15) 0)
               [UpNext "a"%string] in
  In (mkAction 0 (Num 15)) (armed (scheduler w))
  /\ armed (scheduler (step clock_steps w (Wakeup 0))) = [mkAction 0 (Num 0)].
Proof.
  intros w. split; [now left|].
  destruct (dispatch_rearms string string clock_steps (Num 15) 0
              [UpNext "a"%string] (mkAction 0 (Num 15))
              (mkDelayMessage (Num 15) "a"%string) [])
    as (_ & H & _); [now left | reflexivity |].
  exact H.
Defined.

Lemma clock_steps_monotonic : monotonic clock_steps.
Proof. intros k. unfold clock_steps. lia. Qed.

Lemma queue_sorted_by_due_time_witness :
  monotonic clock_steps
  /\ StronglySorted due_le
       (queue (source (run clock_steps (subscribe string string (Num 15) 0)
                           [UpNext "a"%string; UpNext "b"%string; UpNext "c"%string]))).
Proof.
  split; [exact clock_steps_monotonic|].
  destruct (queue_sorted_by_due_time string string clock_steps 15 0
              [UpNext "a"%string; UpNext "b"%string; UpNext "c"%string] clock_steps_monotonic)
    as (_ & H).
  exact H.
Defined.




Lemma completion_deferred_witness :
  let w := run clock_steps (subscribe string string (Num 15) 0)
               [UpNext "a"%string; UpNext "b"%string] in
  isStopped (source w) = false
  /\ draining (received (destination w)) (queue (source w))
       (run clock_steps (step clock_steps w UpComplete) [Wakeup 0%nat]).
Proof.
  intros w. split; [reflexivity|].
  destruct (completion_deferred string string clock_steps (Num 15) 0
              [UpNext "a"%string; UpNext "b"%string]) as (_ & H); [reflexivity|].
  destruct H as (_ & _ & _ & _ & _ & H & _); [discriminate|].
  exact (H [Wakeup 0%nat]).
Defined.

Lemma past_date_gives_negative_delay_witness :
  40 < clock_frozen 100 0
  /\ delay (clock_frozen 100) (OfDate (Num 40)) 0 = (Num (-60), 1%nat).
Proof.
  split; [reflexivity|].
  destruct (past_date_gives_negative_delay string string (clock_frozen 100)
              40 0) as (_ & H & _); [reflexivity|].
  exact H.
Defined.

Arguments keeps_going {T E} evs.
Arguments nexts {T E} ms.

(** ** Example runs of the further properties *)

Lemma clock_hold_monotonic : monotonic clock_hold.
Proof. intros [|[|k]]; cbn; lia. Qed.

Lemma dispatch_goes_idle_witness :
  let w := run clock_hold (subscribe string string (Num 5) 0)
               [UpNext "a"%string; UpNext "b"%string] in
  (In (mkAction 0 (Num 5)) (armed (scheduler w))
   /\ isStopped (source w) = false)
  /\ armed (scheduler (step clock_hold (step clock_hold w (Wakeup 0))
                            (UpNext "c"%string))) =
       [mkAction 1 (Num 5)].
Proof.
  intros w. split; [split; [now left | reflexivity]|].
  destruct (dispatch_goes_idle string string clock_hold (Num 5) 0
              [UpNext "a"%string; UpNext "b"%string] (mkAction 0 (Num 5))
              "c"%string)
    as (_ & _ & _ & _ & _ & _ & _ & _ & H & _);
    [now left | reflexivity | reflexivity |].
  exact H.
Defined.

Lemma premature_wakeup_emits_nothing_witness :
  let w := run clock_steps (subscribe string string (Num 15) 0)
               [UpNext "a"%string] in
  In (mkAction 0 (Num 15)) (armed (scheduler w))
  /\ armed (scheduler (step clock_steps w (Wakeup 0))) = [mkAction 0 (Num 0)].
Proof.
  intros w. split; [now left|].
  destruct (premature_wakeup_emits_nothing string string clock_steps (Num 15) 0
              [UpNext "a"%string] (mkAction 0 (Num 15))
              (mkDelayMessage (Num 15) "a"%string) [])
    as (_ & _ & H & _); [now left | reflexivity | reflexivity |].
  exact H.
Defined.

Lemma no_value_before_its_due_time_witness :
  let w := run clock_hold (subscribe string string (Num 5) 0)
               [UpNext "a"%string; UpNext "b"%string] in
  In (mkAction 0 (Num 5)) (armed (scheduler w))
  /\ exists out,
       queue (source w) =
         out ++ queue (source (step clock_hold w (Wakeup 0))).
Proof.
  intros w. split; [now left|].
  destruct (no_value_before_its_due_time string string clock_hold (Num 5) 0
              [UpNext "a"%string; UpNext "b"%string] (mkAction 0 (Num 5)))
    as (out & H & _); [now left|].
  exists out. exact H.
Defined.

Lemma wakeup_leaves_nothing_due_witness :
  let w := run clock_hold (subscribe string string (Num 15) 0)
               [UpNext "a"%string; UpNext "b"%string] in
  (monotonic clock_hold /\ In (mkAction 0 (Num 15)) (armed (scheduler w)))
  /\ Forall (fun m => exists x, time m = Num x /\ 20 < x)
            (queue (source (step clock_hold w (Wakeup 0)))).
Proof.
  intros w. split; [split; [exact clock_hold_monotonic | now left]|].
  destruct (wakeup_leaves_nothing_due string string clock_hold 15 0
              [UpNext "a"%string; UpNext "b"%string] (mkAction 0 (Num 15)) 20
              clock_hold_monotonic)
    as (out & _ & _ & H).
  - now left.
  - intros k Hk. cbn in Hk. destruct k as [|[|k]]; [lia | lia | reflexivity].
  - exact H.
Defined.

Lemma nan_delay_never_emits_witness :
  isNaN (to_number (OfDate NaN)) = true
  /\ delivered (run clock_steps
                  (subscribe string string
                     (fst (delay clock_steps (OfDate NaN) 0)) 0)
                  [UpNext "a"%string; Wakeup 0%nat; UpComplete; Wakeup 0%nat])
     = [].
Proof.
  split; [reflexivity|].
  destruct (nan_delay_never_emits string string clock_steps (OfDate NaN) 0 0
              [UpNext "a"%string; Wakeup 0%nat; UpComplete; Wakeup 0%nat])
    as (_ & H & _); [reflexivity|].
  exact H.
Defined.

Lemma date_delay_shifts_to_the_date_witness :
  let w := run (clock_frozen 100)
               (subscribe string string
                  (fst (delay (clock_frozen 100) (OfDate (Num 160)) 0)) 1) [] in
  isStopped (source w) = false
  /\ queue (source (step (clock_frozen 100) w (UpNext "a"%string))) =
       [mkDelayMessage (Num 160) "a"%string].
Proof.
  intros w. split; [reflexivity|].
  destruct (date_delay_shifts_to_the_date string string (clock_frozen 100)
              160 0 1 [] "a"%string) as (_ & H); [reflexivity|].
  apply H. reflexivity.
Defined.

Lemma late_wakeup_delivers_everything_witness :
  let w := run clock_hold (subscribe string string (Num 5) 0)
               [UpNext "a"%string; UpNext "b"%string; UpComplete] in
  (monotonic clock_hold /\ In (mkAction 0 (Num 5)) (armed (scheduler w)))
  /\ received (destination (step clock_hold w (Wakeup 0))) =
       [NextN "a"%string; NextN "b"%string; CompleteN].
Proof.
  intros w. split; [split; [exact clock_hold_monotonic | now left]|].
  destruct (late_wakeup_delivers_everything string string clock_hold (Num 5) 0
              [UpNext "a"%string; UpNext "b"%string; UpComplete]
              (mkAction 0 (Num 5)) clock_hold_monotonic)
    as (_ & _ & _ & H).
  - now left.
  - repeat (constructor;
            [eexists; split; [reflexivity | vm_compute; discriminate]|]).
    constructor.
  - exact H.
Defined.

Lemma spacing_preserved_witness :
  let w := run clock_steps (subscribe string string (Num 15) 0) [] in
  let mid := [Wakeup 0%nat; UpNext "b"%string] in
  (isStopped (source w) = false /\ keeps_going mid = true
   /\ safe_integer 15 /\ safe_integer 0 /\ safe_integer 40)
  /\ exists x1 x2,
       queue (source (step clock_steps w (UpNext "a"%string))) =
         queue (source w) ++ [mkDelayMessage (Num x1) "a"%string]
       /\ queue (source (step clock_steps
                           (run clock_steps
                              (step clock_steps w (UpNext "a"%string)) mid)
                           (UpNext "c"%string))) =
            queue (source (run clock_steps
                             (step clock_steps w (UpNext "a"%string)) mid))
            ++ [mkDelayMessage (Num x2) "c"%string]
       /\ x2 - x1 =
            clock_steps (ticks (scheduler
              (run clock_steps (step clock_steps w (UpNext "a"%string)) mid)))
            - clock_steps (ticks (scheduler w)).
Proof.
  intros w mid.
  assert (Hsafe : forall z, - 2 ^ 53 <= z <= 2 ^ 53 -> safe_integer z)
    by (intros z Hz; exact Hz).
  split; [repeat split; try reflexivity; apply Hsafe; lia|].
  apply (spacing_preserved string string clock_steps 15 0 []
           "a"%string mid "c"%string);
    try reflexivity; apply Hsafe; cbn; lia.
Defined.

Arguments FromRun {T E} ev.
Arguments Unsubscribe {T E}.
Arguments lifetime {T E} clock w ss.

(** After a value and the consumer's unsubscribe the Activity Flag is
    still true and no dispatch action is armed: the stage has no
    teardown code that could clear it. *)
Lemma activity_flag_stale_after_unsubscribe :
  let w := lifetime clock_steps (subscribe string string (Num 15) 0)
             [FromRun (UpNext "a"%string); Unsubscribe] in
  active (source w) = true
  /\ armed (scheduler w) = []
  /\ received (destination w) = []
  /\ queue (source w) = [mkDelayMessage (Num 15) "a"%string].
Proof. cbv zeta. repeat split. Qed.

